(** * Tinyshot: the HTML-to-compact-snapshot compressor

    A shallow embedding of [src/mcp/tools/tinyshot/tinyshot.ts] and the
    properties its specification states about it.

    - JavaScript strings are sequences of UTF-16 code units ([str]).
    - The regular expressions of the source are written in a small
      syntax ([re]) and run by a backtracking matcher that follows the
      priority order of the ECMAScript matcher.
    - A parsed document is a tree of nodes; an element is addressed by
      the path from it up to the document element, so that two
      references denote the same DOM object iff their paths are equal.
    - The class-level caches and the clock are threaded explicitly.
    - The HTML parser (JSDOM) is not part of the repository: it is a
      section variable [parse], [None] standing for a thrown exception. *)

From Stdlib Require Import String Ascii ZArith NArith Lia.
From stdpp Require Import base option list gmap.

Local Open Scope N_scope.
Local Open Scope nat_scope.

(** ** Strings *)

Module Js.

Definition char := N.
Definition str := list char.

(** [u "..."] is the JavaScript string with the given ASCII characters. *)
Definition u (s : string) : str :=
  map N_of_ascii (list_ascii_of_string s).

(** The double quote, and [uq "..."], which reads a backquote in its
    argument as a double quote. *)
Definition dq : str := [34%N].
Definition uq (s : string) : str :=
  map (fun c => if (c =? 96)%N then 34%N else c) (u s).

Definition is_upperA (c : char) : bool := ((65 <=? c) && (c <=? 90))%N.
Definition is_lowerA (c : char) : bool := ((97 <=? c) && (c <=? 122))%N.
Definition lowerA (c : char) : char := if is_upperA c then (c + 32)%N else c.
Definition upperA (c : char) : char := if is_lowerA c then (c - 32)%N else c.

Definition in_range (lo hi c : char) : bool := ((lo <=? c) && (c <=? hi))%N.
Arguments in_range (lo hi c)%_N_scope.

(** WhiteSpace and LineTerminator code units: what [\s] matches and
    what [trim] removes. *)
Definition is_ws (c : char) : bool :=
  in_range 9 13 c || (c =? 32)%N || (c =? 160)%N || (c =? 5760)%N
  || in_range 8192 8202 c || (c =? 8232)%N || (c =? 8233)%N
  || (c =? 8239)%N || (c =? 8287)%N || (c =? 12288)%N || (c =? 65279)%N.

(** LineTerminator code units: what [.] does not match. *)
Definition is_lt (c : char) : bool :=
  (c =? 10)%N || (c =? 13)%N || (c =? 8232)%N || (c =? 8233)%N.

Definition is_digit (c : char) : bool := in_range 48 57 c.

Fixpoint eqb (a b : str) : bool :=
  match a, b with
  | [], [] => true
  | x :: a', y :: b' => (x =? y)%N && eqb a' b'
  | _, _ => false
  end.

Fixpoint startsWith (s p : str) : bool :=
  match p, s with
  | [], _ => true
  | x :: p', y :: s' => (x =? y)%N && startsWith s' p'
  | _ :: _, [] => false
  end.

Fixpoint includes (s p : str) : bool :=
  startsWith s p || match s with [] => false | _ :: s' => includes s' p end.

Fixpoint trimStart (s : str) : str :=
  match s with
  | c :: s' => if is_ws c then trimStart s' else s
  | [] => []
  end.
Definition trimEnd (s : str) : str := rev (trimStart (rev s)).
Definition trim (s : str) : str := trimEnd (trimStart s).

(** [s.length] as a JavaScript number. *)
Definition len (s : str) : Z := Z.of_nat (length s).

(** [a.slice(0, n)] on a string or an array, for an integral [n]:
    a negative end counts from the back. *)
Definition slice0 {A} (n : Z) (l : list A) : list A :=
  if (n <? 0)%Z
  then take (Z.to_nat (Z.max (Z.of_nat (length l) + n) 0)) l
  else take (Z.to_nat n) l.

(** [a || b] on strings: the empty string is falsy. *)
Definition or_else (a b : str) : str :=
  match a with [] => b | _ => a end.

Definition truthy (a : str) : bool :=
  match a with [] => false | _ => true end.

(** [parts.join(sep)] *)
Fixpoint join (sep : str) (parts : list str) : str :=
  match parts with
  | [] => []
  | [p] => p
  | p :: rest => p ++ sep ++ join sep rest
  end.

Definition elem_of_strs (s : str) (l : list str) : bool := existsb (eqb s) l.

(** Equality up to the case of ASCII letters *)
Definition eqb_nocase (a b : str) : bool := eqb (map upperA a) (map upperA b).

End Js.

Import Js.

(** ** Regular expressions *)

Module Regex.

(** The fragment of the regular-expression syntax the source uses: every
    quantifier it writes ranges over a single character class. *)
Inductive re :=
| Lit (s : str)
| Cls (neg : bool) (p : char -> bool)
| Rep (greedy : bool) (lo : nat) (hi : option nat) (neg : bool) (p : char -> bool)
| Seq (r1 r2 : re)
| Alt (r1 r2 : re)
| Grp (r : re)
| Bol
| Eol.

Fixpoint seq (rs : list re) : re :=
  match rs with
  | [] => Lit []
  | [r] => r
  | r :: rs' => Seq r (seq rs')
  end.

Fixpoint alt (rs : list re) : re :=
  match rs with
  | [] => Cls false (fun _ => false)
  | [r] => r
  | r :: rs' => Alt r (alt rs')
  end.

Definition star neg p := Rep true 0 None neg p.
Definition plus neg p := Rep true 1 None neg p.
Definition lazy_star neg p := Rep false 0 None neg p.
Definition opt neg p := Rep true 0 (Some 1) neg p.
Definition at_least n neg p := Rep true n None neg p.

Definition one_of (cs : str) (c : char) : bool := existsb (N.eqb c) cs.
Definition any : char -> bool := fun _ => true.
Definition hex_lower (c : char) : bool := in_range 97 102 c || is_digit c.

Section Matcher.
Context {A : Type}.
(** the [i] flag *)
Variable ci : bool.

(** Canonicalize of the matcher, on the ASCII letters the patterns
    mention. *)
Definition chr_match (a c : char) : bool :=
  if ci then (upperA a =? upperA c)%N else (a =? c)%N.

Definition cls_match (neg : bool) (p : char -> bool) (c : char) : bool :=
  xorb neg (p c || (ci && (p (lowerA c) || p (upperA c)))).

(** continuation: end index, remaining input, capture 1 *)
Definition cont := nat -> str -> option str -> option A.

Fixpoint lit (a : str) (k : cont) (i : nat) (s : str) (cap : option str) : option A :=
  match a with
  | [] => k i s cap
  | x :: a' =>
      match s with
      | c :: s' => if chr_match x c then lit a' k (S i) s' cap else None
      | [] => None
      end
  end.

Definition room (hi : option nat) : bool :=
  match hi with Some 0 => false | _ => true end.

Definition less (hi : option nat) : option nat :=
  match hi with Some n => Some (pred n) | None => None end.

Fixpoint rep (greedy : bool) (lo : nat) (hi : option nat) (neg : bool)
    (p : char -> bool) (k : cont) (i : nat) (s : str) (cap : option str)
    {struct s} : option A :=
  match s with
  | c :: s' =>
      if room hi && cls_match neg p c then
        match lo with
        | S lo' => rep greedy lo' (less hi) neg p k (S i) s' cap
        | 0 =>
            if greedy then
              match rep greedy 0 (less hi) neg p k (S i) s' cap with
              | Some x => Some x
              | None => k i s cap
              end
            else
              match k i s cap with
              | Some x => Some x
              | None => rep greedy 0 (less hi) neg p k (S i) s' cap
              end
        end
      else match lo with 0 => k i s cap | S _ => None end
  | [] => match lo with 0 => k i s cap | S _ => None end
  end.

Fixpoint run (r : re) (k : cont) (i : nat) (s : str) (cap : option str) : option A :=
  match r with
  | Lit a => lit a k i s cap
  | Cls neg p =>
      match s with
      | c :: s' => if cls_match neg p c then k (S i) s' cap else None
      | [] => None
      end
  | Rep greedy lo hi neg p => rep greedy lo hi neg p k i s cap
  | Seq r1 r2 => run r1 (run r2 k) i s cap
  | Alt r1 r2 =>
      match run r1 k i s cap with
      | Some x => Some x
      | None => run r2 k i s cap
      end
  | Grp r' => run r' (fun j s' _ => k j s' (Some (take (j - i) s))) i s cap
  | Bol => match i with 0 => k i s cap | S _ => None end
  | Eol => match s with [] => k i s cap | _ :: _ => None end
  end.
End Matcher.

(** A match attempt at index [i]: the end index and capture 1. *)
Definition match_at (ci : bool) (r : re) (i : nat) (s : str) : option (nat * option str) :=
  run ci r (fun j _ cap => Some (j, cap)) i s None.

(** [r.exec(s)] without the [g] flag: the leftmost match, as
    (matched text, capture 1). *)
Fixpoint exec_from (ci : bool) (r : re) (i : nat) (s : str) : option (str * option str) :=
  match match_at ci r i s with
  | Some (j, cap) => Some (take (j - i) s, cap)
  | None =>
      match s with
      | [] => None
      | _ :: s' => exec_from ci r (S i) s'
      end
  end.

Definition exec (ci : bool) (r : re) (s : str) := exec_from ci r 0 s.

(** [r.test(s)] *)
Definition test (ci : bool) (r : re) (s : str) : bool :=
  match exec ci r s with Some _ => true | None => false end.

(** The input cut into unmatched characters and successive matches of a
    [g] regular expression; [skip] characters of the current match are
    still to be passed over. *)
Fixpoint segments (ci : bool) (r : re) (i skip : nat) (s : str) : list (char + str) :=
  match s with
  | [] =>
      match skip, match_at ci r i [] with
      | 0, Some _ => [inr []]
      | _, _ => []
      end
  | c :: s' =>
      match skip with
      | S n => segments ci r (S i) n s'
      | 0 =>
          match match_at ci r i s with
          | Some (j, _) =>
              match j - i with
              | 0 => inr [] :: inl c :: segments ci r (S i) 0 s'
              | S n => inr (take (S n) s) :: segments ci r (S i) n s'
              end
          | None => inl c :: segments ci r (S i) 0 s'
          end
      end
  end.

(** [s.match(r)] with the [g] flag; [null] is the empty list, which
    [?.forEach] treats alike. *)
Definition match_all (ci : bool) (r : re) (s : str) : list str :=
  omap (fun x => match x with inr m => Some m | inl _ => None end)
       (segments ci r 0 0 s).

(** [s.replace(r, by)] with the [g] flag *)
Definition replace_all (ci : bool) (r : re) (by_ : str) (s : str) : str :=
  flat_map (fun x => match x with inr _ => by_ | inl c => [c] end)
           (segments ci r 0 0 s).

(** [s.split(r)] for a separator that matches no empty string *)
Fixpoint split_segs (cur : str) (l : list (char + str)) : list str :=
  match l with
  | [] => [rev cur]
  | inl c :: l' => split_segs (c :: cur) l'
  | inr _ :: l' => rev cur :: split_segs [] l'
  end.

Definition split (ci : bool) (r : re) (s : str) : list str :=
  split_segs [] (segments ci r 0 0 s).

End Regex.

Import Regex.

(** ** Title and text extraction *)

Definition not_gt : char -> bool := one_of (u ">").

(** [/<title[^>]*>(.*?)<\/title>/i] *)
Definition title_re : re :=
  seq [Lit (u "<title"); star true not_gt; Lit (u ">");
       Grp (lazy_star true is_lt); Lit (u "</title>")].

(** [/<script[^>]*>[\s\S]*?<\/script>/gi] *)
Definition script_re : re :=
  seq [Lit (u "<script"); star true not_gt; Lit (u ">");
       lazy_star false any; Lit (u "</script>")].

(** [/<style[^>]*>[\s\S]*?<\/style>/gi] *)
Definition style_re : re :=
  seq [Lit (u "<style"); star true not_gt; Lit (u ">");
       lazy_star false any; Lit (u "</style>")].

(** [/<[^>]+>/g] *)
Definition tag_re : re := seq [Lit (u "<"); plus true not_gt; Lit (u ">")].

(** [/\s+/g] *)
Definition spaces_re : re := plus false is_ws.

Definition getTitle (html : str) : str :=
  match exec true title_re html with
  | Some (_, Some t) => or_else (trim t) (u "Page")
  | _ => u "Page"
  end.

Definition getText (html : str) : str :=
  trim (replace_all false spaces_re (u " ")
         (replace_all false tag_re (u " ")
           (replace_all true style_re []
             (replace_all true script_re [] html)))).

Definition login_html : str :=
  uq "<html><head><title>Login</title></head><body><form><input type=`text` placeholder=`Username`><input type=`password` placeholder=`Password`><button>Sign In</button></form></body></html>".

(** ** The document object model *)

Module Dom.

Inductive node :=
| Text (data : str)
| Comment (data : str)
| Element (tag : str) (attrs : list (str * str)) (children : list node).

(** A document is given by its document element. The [tag] of an
    element holds [tagName.toLowerCase()], the only form in which the
    source reads a tag name. *)
Definition document := node.

(** A reference to an element: the child indexes leading from the
    element up to the document element, which is [[]]. *)
Definition elem := list nat.

Fixpoint resolve (n : node) (down : list nat) : option node :=
  match down with
  | [] => Some n
  | i :: down' =>
      match n with
      | Element _ _ cs =>
          match cs !! i with
          | Some c => resolve c down'
          | None => None
          end
      | _ => None
      end
  end.

Definition node_at (doc : document) (e : elem) : option node :=
  resolve doc (rev e).

Definition tagName (doc : document) (e : elem) : str :=
  match node_at doc e with Some (Element t _ _) => t | _ => [] end.

Definition attributes (doc : document) (e : elem) : list (str * str) :=
  match node_at doc e with Some (Element _ a _) => a | _ => [] end.

Definition childNodes (doc : document) (e : elem) : list node :=
  match node_at doc e with Some (Element _ _ cs) => cs | _ => [] end.

Fixpoint assoc {V} (k : str) (l : list (str * V)) : option V :=
  match l with
  | [] => None
  | (k', v) :: l' => if eqb k k' then Some v else assoc k l'
  end.

Definition getAttribute (doc : document) (e : elem) (name : str) : option str :=
  assoc name (attributes doc e).

Definition hasAttribute (doc : document) (e : elem) (name : str) : bool :=
  match getAttribute doc e name with Some _ => true | None => false end.

Definition getAttributeNames (doc : document) (e : elem) : list str :=
  map fst (attributes doc e).

(** [getAttribute(name) || ''] *)
Definition attr_or_empty (doc : document) (e : elem) (name : str) : str :=
  match getAttribute doc e name with Some v => v | None => [] end.

(** [element.id] and [element.className] reflect the attributes. *)
Definition id (doc : document) (e : elem) : str := attr_or_empty doc e (u "id").
Definition className (doc : document) (e : elem) : str := attr_or_empty doc e (u "class").

Definition is_ascii_ws (c : char) : bool :=
  one_of [9; 10; 12; 13; 32]%N c.

(** Splitting on ASCII whitespace *)
Fixpoint tokens (cur : str) (s : str) : list str :=
  match s with
  | [] => match cur with [] => [] | _ => [rev cur] end
  | c :: s' =>
      if is_ascii_ws c
      then match cur with [] => tokens [] s' | _ => rev cur :: tokens [] s' end
      else tokens (c :: cur) s'
  end.

Fixpoint dedup (seen : list str) (l : list str) : list str :=
  match l with
  | [] => []
  | x :: l' => if elem_of_strs x seen then dedup seen l' else x :: dedup (x :: seen) l'
  end.

(** [Array.from(element.classList)]: the ordered set of class tokens *)
Definition classList (doc : document) (e : elem) : list str :=
  dedup [] (tokens [] (className doc e)).

Fixpoint node_text (n : node) : str :=
  match n with
  | Text d => d
  | Comment _ => []
  | Element _ _ cs => concat (map node_text cs)
  end.

(** [element.textContent] *)
Definition textContent (doc : document) (e : elem) : str :=
  concat (map node_text (childNodes doc e)).

Definition is_element (n : node) : bool :=
  match n with Element _ _ _ => true | _ => false end.

Fixpoint element_indexes (i : nat) (cs : list node) : list nat :=
  match cs with
  | [] => []
  | c :: cs' => (if is_element c then [i] else []) ++ element_indexes (S i) cs'
  end.

(** [Array.from(element.children)] *)
Definition children (doc : document) (e : elem) : list elem :=
  map (fun i => i :: e) (element_indexes 0 (childNodes doc e)).

Definition parentElement (e : elem) : option elem :=
  match e with [] => None | _ :: p => Some p end.

Definition documentElement : elem := [].

Fixpoint first_body (i : nat) (cs : list node) : option elem :=
  match cs with
  | [] => None
  | Element t _ _ :: cs' =>
      if eqb t (u "body") || eqb t (u "frameset") then Some [i]
      else first_body (S i) cs'
  | _ :: cs' => first_body (S i) cs'
  end.

(** [document.body] *)
Definition body (doc : document) : option elem :=
  if eqb (tagName doc documentElement) (u "html")
  then first_body 0 (childNodes doc documentElement)
  else None.

(** All elements below [n] (itself included) in tree order *)
Fixpoint elements_under (n : node) (e : elem) : list elem :=
  match n with
  | Element _ _ cs =>
      e :: (fix go (cs : list node) (i : nat) : list elem :=
              match cs with
              | [] => []
              | c :: cs' => elements_under c (i :: e) ++ go cs' (S i)
              end) cs 0
  | _ => []
  end.

Definition all_elements (doc : document) : list elem :=
  elements_under doc documentElement.

(** *** The selectors given to [querySelectorAll] *)

Inductive simple :=
| Tag (t : str)
| Class (c : str)
| HasAttr (a : str)
| AttrEq (a v : str)
| AttrEqI (a v : str)
| Not (s : simple).

Definition compound := list simple.

Inductive selector :=
| Compound (c : compound)
| Descendant (anc c : compound).

Fixpoint matches_simple (doc : document) (e : elem) (s : simple) : bool :=
  match s with
  | Tag t => eqb (tagName doc e) t
  | Class c => elem_of_strs c (classList doc e)
  | HasAttr a => hasAttribute doc e a
  | AttrEq a v =>
      match getAttribute doc e a with Some w => eqb w v | None => false end
  | AttrEqI a v =>
      match getAttribute doc e a with Some w => eqb_nocase w v | None => false end
  | Not s' => negb (matches_simple doc e s')
  end.

Definition matches_compound (doc : document) (e : elem) (c : compound) : bool :=
  match node_at doc e with
  | Some (Element _ _ _) => forallb (matches_simple doc e) c
  | _ => false
  end.

Fixpoint has_ancestor (doc : document) (e : elem) (c : compound) : bool :=
  match e with
  | [] => false
  | _ :: p => matches_compound doc p c || has_ancestor doc p c
  end.

Definition matches (doc : document) (e : elem) (s : selector) : bool :=
  match s with
  | Compound c => matches_compound doc e c
  | Descendant anc c => matches_compound doc e c && has_ancestor doc e anc
  end.

(** [document.querySelectorAll(selector)]: the matching elements in
    tree order *)
Definition querySelectorAll (doc : document) (s : selector) : list elem :=
  filter (fun e => matches doc e s = true) (all_elements doc).

End Dom.

Import Dom.

(** ** Compressed snapshots *)

Inductive kind := btn | input | link | select.

Module Elem.
Record t := mk {
  type : kind;
  text : str;
  sel : str;
  context : option str
}.
End Elem.

Module CompSnapshot.
Record t := mk {
  title : str;
  text : str;
  elems : list Elem.t
}.
End CompSnapshot.

Record CompOpts := {
  maxText : option Z;
  maxElems : option Z
}.

Definition no_opts : CompOpts := {| maxText := None; maxElems := None |}.

(** ** Element filters *)

Definition isMeaningfulElement (doc : document) (element : elem) : bool :=
  let tag := tagName doc element in
  let text := trim (textContent doc element) in
  if negb (truthy text) && negb (eqb tag (u "input")) then false
  else if (100 <? len text)%Z then false
  else true.

Definition hiddenPatterns : list str :=
  [u "hidden"; u "invisible"; u "d-none"; u "sr-only"; u "visually-hidden"].

Fixpoint isVisible (doc : document) (element : elem) : bool :=
  if hasAttribute doc element (u "hidden") then false
  else
    let style := attr_or_empty doc element (u "style") in
    if includes style (u "display:none") || includes style (u "display: none") then false
    else if includes style (u "visibility:hidden") || includes style (u "visibility: hidden") then false
    else
      let className := className doc element in
      if existsb (fun pattern => includes className pattern) hiddenPatterns then false
      else
        match element with
        | [] => true
        | _ :: parent =>
            if negb (bool_decide (Some parent = body doc))
               && negb (bool_decide (parent = documentElement))
            then isVisible doc parent
            else true
        end.

Definition getOwnText (doc : document) (element : elem) : str :=
  concat (map (fun n => match n with Text d => d | _ => [] end)
              (childNodes doc element)).

Definition meaningfulAttrs : list str :=
  [u "id"; u "data-"; u "aria-"; u "role"; u "onclick"; u "onchange"].

Definition hasMeaningfulAttributes (doc : document) (element : elem) : bool :=
  existsb (fun attr =>
             if eqb attr (u "class") || eqb attr (u "style") then false
             else existsb (fun meaningful => startsWith attr meaningful) meaningfulAttrs)
          (getAttributeNames doc element).

Definition isUselessWrapper (doc : document) (element : elem) : bool :=
  let tag := tagName doc element in
  if negb (elem_of_strs tag [u "div"; u "span"]) then false
  else if truthy (trim (getOwnText doc element)) then false
  else if negb (length (children doc element) =? 1) then false
  else if hasMeaningfulAttributes doc element then false
  else true.

Definition extractMeaningfulChild (doc : document) (wrapper : elem) : elem :=
  match children doc wrapper with
  | [child] => child
  | _ => wrapper
  end.

(** The [while] loop of [unwrapUselessWrappers]; [budget] is what is
    left of the five levels. *)
Fixpoint unwrapElement (doc : document) (budget : nat) (element : elem) : elem :=
  match budget with
  | 0 => element
  | S budget' =>
      if isUselessWrapper doc element
      then unwrapElement doc budget' (extractMeaningfulChild doc element)
      else element
  end.

Definition push_new (element : elem) (unwrapped : list elem) : list elem :=
  if bool_decide (element ∈ unwrapped) then unwrapped else unwrapped ++ [element].

(** The body of the [for] loop of [unwrapUselessWrappers] *)
Definition unwrap_step (doc : document) (unwrapped : list elem) (element : elem) : list elem :=
  push_new (unwrapElement doc 5 element) unwrapped.

Definition unwrapUselessWrappers (doc : document) (elements : list elem) : list elem :=
  foldl (unwrap_step doc) [] elements.

Definition selectors : list selector :=
  [ Compound [Tag (u "button")];
    Compound [Tag (u "a"); HasAttr (u "href")];
    (* the HTML [type] attribute is compared without regard to case *)
    Compound [Tag (u "input"); HasAttr (u "type"); Not (AttrEqI (u "type") (u "hidden"))];
    Compound [Tag (u "select")];
    Compound [Tag (u "textarea")];
    Compound [AttrEq (u "role") (u "button")];
    Compound [AttrEq (u "role") (u "link")];
    Compound [AttrEq (u "role") (u "menuitem")];
    Compound [HasAttr (u "onclick")];
    Descendant [Tag (u "nav")] [Tag (u "a")];
    Descendant [Class (u "menu")] [Tag (u "a")];
    Compound [Class (u "nav-link")] ].

Definition findMeaningfulElements (doc : document) : list elem :=
  let meaningful :=
    flat_map (fun selector =>
                filter (fun elem => isMeaningfulElement doc elem && isVisible doc elem = true)
                       (querySelectorAll doc selector))
             selectors in
  unwrapUselessWrappers doc meaningful.

(** ** Fingerprint of the markup *)

(** ToInt32 *)
Definition toInt32 (z : Z) : Z := ((z + 2 ^ 31) mod 2 ^ 32 - 2 ^ 31)%Z.

Definition digit36 (d : Z) : char :=
  if (d <? 10)%Z then Z.to_N (48 + d) else Z.to_N (87 + d).

Fixpoint digits36 (n : nat) (z : Z) (acc : str) : str :=
  match n with
  | 0 => acc
  | S n' =>
      let acc' := digit36 (z mod 36) :: acc in
      if (z / 36 =? 0)%Z then acc' else digits36 n' (z / 36) acc'
  end.

(** [n.toString(36)] for a 32-bit integer, which has at most seven
    digits in base 36 *)
Definition toString36 (z : Z) : str :=
  if (z <? 0)%Z then u "-" ++ digits36 7 (- z) [] else digits36 7 z [].

Definition hash_step (hash : Z) (char : char) : Z :=
  let hash := (toInt32 (toInt32 hash * 32) - hash + Z.of_N char)%Z in
  toInt32 hash.

Definition generateHtmlHash (html : str) : str :=
  toString36 (fold_left hash_step (take 1000 html) 0%Z).

(** ** Selector synthesis *)

(** [/^(auto|gen|temp|[a-f0-9]{8,}|\d+)$/i] *)
Definition meaninglessIdPattern : re :=
  seq [Bol;
       Grp (alt [Lit (u "auto"); Lit (u "gen"); Lit (u "temp");
                 at_least 8 false hex_lower; plus false is_digit]);
       Eol].

Definition isMeaningfulId (id : str) : bool :=
  negb (test true meaninglessIdPattern id)
  && (len id <? 30)%Z && (2 <? len id)%Z.

Definition meaningfulClassPattern : re :=
  seq [Bol;
       Grp (alt (map (fun w => Lit (u w))
         ["btn"; "button"; "link"; "nav"; "menu"; "form"; "input"; "search";
          "login"; "header"; "footer"; "main"; "primary"; "secondary";
          "submit"; "cancel"; "close"; "back"; "next"; "prev"; "home"; "user";
          "account"; "profile"; "settings"; "logout"; "signin"; "signup"]%string));
       Eol].

Definition meaninglessClassPattern : re :=
  let side := opt false (one_of (u "tblr")) in
  seq [Bol;
       Grp (alt [Lit (u "col-"); Lit (u "row-"); Lit (u "d-");
                 seq [Lit (u "m"); side; Lit (u "-")];
                 seq [Lit (u "p"); side; Lit (u "-")];
                 Lit (u "text-"); Lit (u "bg-"); Lit (u "border-");
                 at_least 6 false hex_lower;
                 Lit (u "w-"); Lit (u "h-"); Lit (u "flex"); Lit (u "grid");
                 Lit (u "absolute"); Lit (u "relative"); Lit (u "fixed");
                 Lit (u "static")]);
       Eol].

Definition isMeaningfulClass (className : str) : bool :=
  test true meaningfulClassPattern className
  && negb (test true meaninglessClassPattern className).

Definition landmarks : list str :=
  [u "nav"; u "form"; u "header"; u "footer"; u "main"; u "aside"].

(** The loop of [getParentContext]; [budget] is what is left of the
    three levels. *)
Fixpoint parentContextFrom (doc : document) (budget : nat) (parent : option elem) : str :=
  match budget, parent with
  | S budget', Some p =>
      let tag := tagName doc p in
      let parentId := id doc p in
      let classes := classList doc p in
      if elem_of_strs tag landmarks then tag
      else if truthy parentId && isMeaningfulId parentId then u "#" ++ parentId
      else
        match List.find isMeaningfulClass classes with
        | Some meaningfulClass => u "." ++ meaningfulClass
        | None => parentContextFrom doc budget' (parentElement p)
        end
  | _, _ => []
  end.

Definition getParentContext (doc : document) (element : elem) : str :=
  parentContextFrom doc 3 (parentElement element).

Definition sectionClasses : list str :=
  [u "menu"; u "sidebar"; u "content"; u "login"; u "search"].

(** The loop of [getElementContext]; [budget] is what is left of the
    two levels. *)
Fixpoint elementContextFrom (doc : document) (budget : nat) (parent : option elem)
    (contexts : list str) : list str :=
  match budget, parent with
  | S budget', Some p =>
      let tag := tagName doc p in
      let classes := classList doc p in
      let contexts :=
        if elem_of_strs tag [u "nav"; u "header"; u "footer"; u "main"; u "aside"; u "form"]
        then tag :: contexts else contexts in
      let contexts :=
        match List.find (fun cls => existsb (fun sc => includes cls sc) sectionClasses) classes with
        | Some sectionClass =>
            replace_all false (Cls false (one_of (u "-_"))) (u " ") sectionClass :: contexts
        | None => contexts
        end in
      elementContextFrom doc budget' (parentElement p) contexts
  | _, _ => contexts
  end.

Definition getElementContext (doc : document) (element : elem) : str :=
  join (u " > ") (elementContextFrom doc 2 (parentElement element) []).

Definition getElementCacheKey (doc : document) (element : elem) : str :=
  let tag := tagName doc element in
  let id := id doc element in
  let classes := className doc element in
  let type := attr_or_empty doc element (u "type") in
  tag ++ u "-" ++ id ++ u "-" ++ classes ++ u "-" ++ type.

(** What [generateMeaningfulSelector] computes when the selector cache
    has no entry for the element's key *)
Definition computeSelector (doc : document) (element : elem) : str :=
  let tag := tagName doc element in
  let id := id doc element in
  if truthy id && isMeaningfulId id then u "#" ++ id
  else
    let meaningfulClasses := List.filter isMeaningfulClass (classList doc element) in
    let selectors :=
      [tag]
      ++ (if (0 <? length meaningfulClasses)
          then [u "." ++ join (u ".") (take 2 meaningfulClasses)] else [])
      ++ (if eqb tag (u "input")
          then match getAttribute doc element (u "type") with
               | Some ((_ :: _) as type) => [u "[type=" ++ dq ++ type ++ dq ++ u "]"]
               | _ => []
               end
          else []) in
    let parentContext := getParentContext doc element in
    if truthy parentContext
    then parentContext ++ u " " ++ concat selectors
    else concat selectors.

(** ** The class-level caches *)

(** [domCache] is a [Map] whose insertion order [cleanupCaches] reads:
    an association list, oldest entry first, one entry per key. *)
Record caches := {
  domCache : list (str * document);
  selectorCache : gmap str str;
  lastCacheCleanup : Z
}.

Definition CACHE_TTL : Z := 300000.
Definition MAX_CACHE_SIZE : nat := 100.

Definition map_delete {V} (k : str) (m : list (str * V)) : list (str * V) :=
  List.filter (fun kv => negb (eqb (fst kv) k)) m.

Fixpoint map_set {V} (k : str) (v : V) (m : list (str * V)) : list (str * V) :=
  match m with
  | [] => [(k, v)]
  | (k', v') :: m' => if eqb k' k then (k', v) :: m' else (k', v') :: map_set k v m'
  end.

(** Computations that read and update the caches *)
Definition M (A : Type) : Type := caches -> A * caches.

Definition ret {A} (a : A) : M A := fun st => (a, st).

Definition bind {A B} (m : M A) (f : A -> M B) : M B :=
  fun st => let (a, st') := m st in f a st'.

Notation "'let*' x ':=' m 'in' k" := (bind m (fun x => k))
  (at level 10, x name, m at level 100, k at level 200).

(** [array.map(f)] for an [f] that touches the caches *)
Fixpoint mapM {A B} (f : A -> M B) (l : list A) : M (list B) :=
  match l with
  | [] => ret []
  | a :: l' => let* b := f a in let* bs := mapM f l' in ret (b :: bs)
  end.

(** [now] is the value of [Date.now()] during the call. *)
Definition cleanupCaches (now : Z) : M unit := fun st =>
  if (CACHE_TTL <? now - lastCacheCleanup st)%Z then
    let dom :=
      if MAX_CACHE_SIZE <? length (domCache st) then
        let entries := domCache st in
        foldl (fun m kv => map_delete (fst kv) m) (domCache st)
              (take (length entries / 2) entries)
      else domCache st in
    (tt, {| domCache := dom; selectorCache := ∅; lastCacheCleanup := now |})
  else (tt, st).

Definition generateMeaningfulSelector (doc : document) (element : elem) : M str := fun st =>
  let cacheKey := getElementCacheKey doc element in
  match selectorCache st !! cacheKey with
  | Some cached => (cached, st)
  | None =>
      let result := computeSelector doc element in
      (result, {| domCache := domCache st;
                  selectorCache := <[cacheKey := result]> (selectorCache st);
                  lastCacheCleanup := lastCacheCleanup st |})
  end.

(** [getAttribute(a) || getAttribute(b) || fallback] *)
Definition first_truthy (l : list (option str)) (fallback : str) : str :=
  match List.filter truthy (omap (fun x => x) l) with
  | s :: _ => s
  | [] => fallback
  end.

(** The [switch] of [elemToElem], given the selector *)
Definition toElem (doc : document) (element : elem) (meaningfulSelector : str) : Elem.t :=
  let tag := tagName doc element in
  let text := trim (textContent doc element) in
  let context := getElementContext doc element in
  if eqb tag (u "button") then
    Elem.mk btn (slice0 30 text) meaningfulSelector
            (Some (or_else context (u "page button")))
  else if eqb tag (u "a") then
    Elem.mk link (slice0 30 text) meaningfulSelector
            (Some (or_else context (u "page link")))
  else if eqb tag (u "input") then
    let placeholder :=
      first_truthy [getAttribute doc element (u "placeholder");
                    getAttribute doc element (u "name")] (u "Input") in
    let inputType := first_truthy [getAttribute doc element (u "type")] (u "text") in
    Elem.mk input placeholder meaningfulSelector
            (Some (or_else context (inputType ++ u " input")))
  else if eqb tag (u "select") then
    Elem.mk select (or_else (slice0 30 text) (u "Select")) meaningfulSelector
            (Some (or_else context (u "dropdown select")))
  else if eqb tag (u "textarea") then
    let textareaPlaceholder :=
      first_truthy [getAttribute doc element (u "placeholder")] (u "Text area") in
    Elem.mk input textareaPlaceholder meaningfulSelector
            (Some (or_else context (u "text area")))
  else
    Elem.mk btn (slice0 30 text) meaningfulSelector
            (Some (or_else context (tag ++ u " element"))).

Definition elemToElem (doc : document) (element : elem) : M Elem.t :=
  let* meaningfulSelector := generateMeaningfulSelector doc element in
  ret (toElem doc element meaningfulSelector).

(** ** The regular-expression fallback *)

(** [/<button[^>]*>.*?<\/button>/gi] *)
Definition button_re : re :=
  seq [Lit (u "<button"); star true not_gt; Lit (u ">");
       lazy_star true is_lt; Lit (u "</button>")].

(** [/<a[^>]*>.*?<\/a>/gi] *)
Definition a_re : re :=
  seq [Lit (u "<a"); star true not_gt; Lit (u ">");
       lazy_star true is_lt; Lit (u "</a>")].

(** [/<input[^>]*>/gi] *)
Definition input_re : re :=
  seq [Lit (u "<input"); star true not_gt; Lit (u ">")].

(** The pattern of [input.match] in [getElemsRegex]: the text
    [placeholder=], one quote character (double or single), and a group
    capturing the longest run of characters that are not quotes. *)
Definition quote : char -> bool := one_of (dq ++ u "'").
Definition placeholder_re : re :=
  seq [Lit (u "placeholder="); Cls false quote; Grp (star true quote)].

Definition getElemsRegex (html : str) : list Elem.t :=
  flat_map (fun btn_ =>
              let text := trim (replace_all false tag_re [] btn_) in
              if truthy text then [Elem.mk btn (slice0 30 text) (u "button") None] else [])
           (match_all true button_re html)
  ++ flat_map (fun link_ =>
              let text := trim (replace_all false tag_re [] link_) in
              if truthy text then [Elem.mk link (slice0 30 text) (u "a") None] else [])
           (match_all true a_re html)
  ++ map (fun input_ =>
            let placeholder :=
              match exec false placeholder_re input_ with
              | Some (_, Some p) => or_else p (u "Input")
              | _ => u "Input"
              end in
            Elem.mk input placeholder (u "input") None)
         (match_all true input_re html).

(** ** Compression *)

Inductive exn := Error (message : string).

Definition too_large : exn := Error "HTML too large for processing".

Section Compress.
(** [new JSDOM(html, ...).window.document]; [None] when it throws. The
    parser is taken to return: markup whose scripts keep JSDOM from
    returning is outside the model. *)
Variable parse : str -> option document.

Definition getElemsDom (html : str) : M (list Elem.t) := fun st =>
  let cacheKey := generateHtmlHash html in
  let found :=
    match assoc cacheKey (domCache st) with
    | Some document => Some (document, st)
    | None =>
        match parse html with
        | Some document =>
            Some (document,
                  if length (domCache st) <? MAX_CACHE_SIZE
                  then {| domCache := map_set cacheKey document (domCache st);
                          selectorCache := selectorCache st;
                          lastCacheCleanup := lastCacheCleanup st |}
                  else st)
        | None => None
        end
    end in
  match found with
  | Some (document, st1) =>
      let meaningfulElems := findMeaningfulElements document in
      let (elems, st2) := mapM (elemToElem document) meaningfulElems st1 in
      (slice0 50 elems, st2)
  | None => ([], st)
  end.

Definition getElems (html : str) : M (list Elem.t) :=
  let* domResult := getElemsDom html in
  if 0 <? length domResult then ret domResult
  else ret (getElemsRegex html).

Definition tiny (now : Z) (html : str) (opts : CompOpts) : M (exn + CompSnapshot.t) :=
  let* _ := cleanupCaches now in
  if (5000000 <? len html)%Z then ret (inl too_large)
  else
    let maxText := default 1000%Z (maxText opts) in
    let maxElems := default 15%Z (maxElems opts) in
    let title := getTitle html in
    let text := slice0 maxText (getText html) in
    let* elems := getElems html in
    ret (inr (CompSnapshot.mk title text (slice0 maxElems elems))).
End Compress.

(** ** The compressor without caches

    The reference for the transparency of the cache layer: [tiny] with
    every cache lookup taken as a miss and nothing stored. *)

Section Uncached.
Variable parse : str -> option document.




End Uncached.

(** ** Restoration *)

Definition nl : str := [10%N].

Definition escapeHtml (text : str) : str :=
  replace_all false (Lit (u "'")) (u "&#x27;")
    (replace_all false (Lit dq) (u "&quot;")
      (replace_all false (Lit (u ">")) (u "&gt;")
        (replace_all false (Lit (u "<")) (u "&lt;")
          (replace_all false (Lit (u "&")) (u "&amp;") text)))).

(** The [default] branch of the [switch] is out of reach: [elem.type]
    is one of the four kinds. *)
Definition elemToHtml (elem : Elem.t) (indent : str) : str :=
  match Elem.type elem with
  | btn =>
      indent ++ uq "<button sel=`" ++ Elem.sel elem ++ uq "`>"
      ++ escapeHtml (Elem.text elem) ++ u "</button>"
  | link =>
      indent ++ uq "<a href=`#` sel=`" ++ Elem.sel elem ++ uq "`>"
      ++ escapeHtml (Elem.text elem) ++ u "</a>"
  | input =>
      indent ++ uq "<input type=`text` sel=`" ++ Elem.sel elem ++ uq "` placeholder=`"
      ++ escapeHtml (Elem.text elem) ++ uq "`>"
  | select =>
      indent ++ uq "<select sel=`" ++ Elem.sel elem ++ uq "`><option>"
      ++ escapeHtml (Elem.text elem) ++ u "</option></select>"
  end.

Definition map_has {V} (k : str) (m : list (str * V)) : bool :=
  match assoc k m with Some _ => true | None => false end.

(** [m.get(k) || []] *)
Definition map_get_list {V} (k : str) (m : list (str * list V)) : list V :=
  default [] (assoc k m).

Definition contextOf (elem : Elem.t) : str :=
  or_else (default [] (Elem.context elem)) (u "main").

Definition groupElementsByContext (elements : list Elem.t) : list (str * list Elem.t) :=
  foldl (fun groups elem =>
           let context := contextOf elem in
           let groups := if map_has context groups then groups else map_set context [] groups in
           map_set context (map_get_list context groups ++ [elem]) groups)
        [] elements.

Definition generateNavSection (elements : list Elem.t) : str :=
  let navItems := join nl (map (fun elem => elemToHtml elem (u "      ")) elements) in
  u "  <header>" ++ nl ++ u "    <nav>" ++ nl ++ navItems ++ nl
  ++ u "    </nav>" ++ nl ++ u "  </header>".

Definition generateHeaderSection (elements : list Elem.t) : str :=
  let headerItems := join nl (map (fun elem => elemToHtml elem (u "    ")) elements) in
  u "  <header>" ++ nl ++ headerItems ++ nl ++ u "  </header>".

Definition generateFormSection (elements : list Elem.t) : str :=
  let formItems := join nl (map (fun elem => elemToHtml elem (u "      ")) elements) in
  u "    <form>" ++ nl ++ formItems ++ nl ++ u "    </form>".

(** [/\n\s*\n/] *)
Definition blank_line_re : re := seq [Lit nl; star false is_ws; Lit nl].

Definition paragraphsOf (pageText : str) : list str :=
  List.filter (fun p => truthy (trim p)) (split false blank_line_re pageText).

Definition generateContentSection (pageText : str) (elements : list Elem.t) : str :=
  let sections :=
    (if truthy (trim pageText)
     then map (fun paragraph => u "      <p>" ++ escapeHtml (trim paragraph) ++ u "</p>")
              (paragraphsOf pageText)
     else [])
    ++ (if 0 <? length elements
        then [uq "      <div class=`actions`>"]
             ++ map (fun elem => elemToHtml elem (u "        ")) elements
             ++ [u "      </div>"]
        else []) in
  u "    <section>" ++ nl ++ join nl sections ++ nl ++ u "    </section>".

Definition formContexts : list str :=
  [u "form"; u "form > login"; u "login form"; u "search form"].

Definition generalElemsOf (elementsByContext : list (str * list Elem.t)) : list Elem.t :=
  flat_map snd
    (List.filter
       (fun entry =>
          negb (elem_of_strs (fst entry)
                  ([u "nav"; u "nav > menu"; u "header"] ++ formContexts)))
       elementsByContext).

Definition generateSemanticBody (elementsByContext : list (str * list Elem.t))
    (pageText : str) : str :=
  let nav :=
    if map_has (u "nav") elementsByContext || map_has (u "nav > menu") elementsByContext then
      let navElems :=
        map_get_list (u "nav") elementsByContext
        ++ map_get_list (u "nav > menu") elementsByContext in
      if 0 <? length navElems then [generateNavSection navElems] else []
    else [] in
  let header :=
    if map_has (u "header") elementsByContext
    then [generateHeaderSection (map_get_list (u "header") elementsByContext)]
    else [] in
  let formElems := flat_map (fun ctx => map_get_list ctx elementsByContext) formContexts in
  let generalElems := generalElemsOf elementsByContext in
  let mainSections :=
    (if 0 <? length formElems then [generateFormSection formElems] else [])
    ++ (if truthy (trim pageText) || (0 <? length generalElems)
        then [generateContentSection pageText generalElems] else []) in
  let sections :=
    nav ++ header
    ++ (if 0 <? length mainSections
        then [u "  <main>" ++ nl ++ join nl mainSections ++ nl ++ u "  </main>"]
        else []) in
  join nl sections.

Definition restore (snapshot : CompSnapshot.t) : str :=
  let elementsByContext := groupElementsByContext (CompSnapshot.elems snapshot) in
  u "<!DOCTYPE html>" ++ nl ++ u "<html>" ++ nl ++ u "<head>" ++ nl
  ++ u "  <title>" ++ escapeHtml (CompSnapshot.title snapshot) ++ u "</title>" ++ nl
  ++ u "</head>" ++ nl ++ u "<body>" ++ nl
  ++ generateSemanticBody elementsByContext (CompSnapshot.text snapshot) ++ nl
  ++ u "</body>" ++ nl ++ u "</html>".

(** ** A reference parser for plain markup

    The theorems below hold for every parser. Where a concrete one is
    needed, [Markup.parse] stands in for JSDOM on the markup given to it
    there: elements that are opened and closed explicitly, void
    elements, quoted or bare attribute values, text; markup that does
    not start with an [html] element is placed in the [body] of an
    otherwise empty document. It never throws. *)

Module Markup.

Inductive token :=
| TText (s : str)
| TOpen (tag : str) (attrs : list (str * str))
| TClose (tag : str).

Fixpoint span (p : char -> bool) (s : str) : str * str :=
  match s with
  | c :: s' => if p c then let (a, b) := span p s' in (c :: a, b) else ([], s)
  | [] => ([], [])
  end.

Definition name_char (c : char) : bool :=
  negb (is_ascii_ws c || one_of (u "=>/") c).

(** The attributes of a start tag, up to and including its [>] *)
Fixpoint read_attrs (n : nat) (s : str) : list (str * str) * str :=
  match n with
  | 0 => ([], s)
  | S n' =>
      match snd (span (fun c => is_ascii_ws c || one_of (u "/") c) s) with
      | [] => ([], [])
      | (c :: rest) as s1 =>
          if (c =? 62)%N then ([], rest)
          else
            let (name, s2) := span name_char s1 in
            match s2 with
            | 61%N :: q :: s3 =>
                if quote q then
                  let (v, s4) := span (fun c => negb (c =? q)%N) s3 in
                  let (more, s5) := read_attrs n' (drop 1 s4) in
                  ((map lowerA name, v) :: more, s5)
                else
                  let (v, s4) := span (fun c => negb (is_ascii_ws c || (c =? 62)%N)) (q :: s3) in
                  let (more, s5) := read_attrs n' s4 in
                  ((map lowerA name, v) :: more, s5)
            | _ =>
                let (more, s5) := read_attrs n' s2 in
                ((map lowerA name, []) :: more, s5)
            end
      end
  end.

Fixpoint tokenize (n : nat) (s : str) : list token :=
  match n with
  | 0 => []
  | S n' =>
      match s with
      | [] => []
      | 60%N :: 47%N :: s1 =>
          let (name, s2) := span name_char s1 in
          TClose (map lowerA name) :: tokenize n' (drop 1 (snd (span (fun c => negb (c =? 62)%N) s2)))
      | 60%N :: s1 =>
          let (name, s2) := span name_char s1 in
          let (attrs, s3) := read_attrs (length s2) s2 in
          TOpen (map lowerA name) attrs :: tokenize n' s3
      | _ =>
          let (t, s1) := span (fun c => negb (c =? 60)%N) s in
          TText t :: tokenize n' s1
      end
  end.

Definition void_tags : list str :=
  [u "area"; u "base"; u "br"; u "col"; u "embed"; u "hr"; u "img"; u "input";
   u "link"; u "meta"; u "source"; u "track"; u "wbr"].

(** An open element: tag, attributes, children so far (latest first) *)
Definition frame : Type := str * list (str * str) * list node.

Definition close_frame (f : frame) : node :=
  let '(t, a, cs) := f in Element t a (rev cs).

Definition add_child (n : node) (stack : list frame) : list frame :=
  match stack with
  | (t, a, cs) :: rest => (t, a, n :: cs) :: rest
  | [] => []
  end.

(** Closes the open elements down to the nearest one named [tag];
    [carry] holds the element just closed, to be added to the next. *)
Fixpoint close_to (tag : str) (carry : list node) (stack : list frame) : list frame :=
  match stack with
  | [] => []
  | (t, a, cs) :: rest =>
      let n := Element t a (rev (carry ++ cs)) in
      if eqb t tag then add_child n rest else close_to tag [n] rest
  end.

Fixpoint build (ts : list token) (stack : list frame) : list frame :=
  match ts with
  | [] => stack
  | TText s :: ts' => build ts' (add_child (Text s) stack)
  | TOpen t a :: ts' =>
      if elem_of_strs t void_tags then build ts' (add_child (Element t a []) stack)
      else build ts' ((t, a, []) :: stack)
  | TClose t :: ts' =>
      build ts' (if existsb (fun f => eqb (fst (fst f)) t) (removelast stack)
                 then close_to t [] stack else stack)
  end.

Fixpoint close_all (carry : list node) (stack : list frame) : list node :=
  match stack with
  | [] => carry
  | [(_, _, cs)] => rev (carry ++ cs)
  | (t, a, cs) :: rest => close_all [Element t a (rev (carry ++ cs))] rest
  end.

Definition parse (html : str) : option document :=
  let nodes := close_all [] (build (tokenize (S (length html)) html) [([], [], [])]) in
  Some match nodes with
       | [Element t a cs] =>
           if eqb t (u "html") then Element t a cs
           else Element (u "html") [] [Element (u "head") [] []; Element (u "body") [] nodes]
       | _ => Element (u "html") [] [Element (u "head") [] []; Element (u "body") [] nodes]
       end.

End Markup.

Definition login_doc : document :=
  Element (u "html") []
    [Element (u "head") [] [Element (u "title") [] [Text (u "Login")]];
     Element (u "body") []
       [Element (u "form") []
          [Element (u "input") [(u "type", u "text"); (u "placeholder", u "Username")] [];
           Element (u "input") [(u "type", u "password"); (u "placeholder", u "Password")] [];
           Element (u "button") [] [Text (u "Sign In")]]]].

Definition fresh (t0 : Z) : caches :=
  {| domCache := []; selectorCache := ∅; lastCacheCleanup := t0 |}.

(** Fifty-one [input] tags without a [type] attribute *)
Definition many_inputs : str := concat (repeat (u "<input>") 51).

(** The snapshot of the login form *)
Definition login_snapshot : CompSnapshot.t :=
  CompSnapshot.mk (u "Login") (u "Login Sign In")
    [ Elem.mk btn (u "Sign In") (u "form button") (Some (u "form"));
      Elem.mk input (u "Username") (uq "form input[type=`text`]") (Some (u "form"));
      Elem.mk input (u "Password") (uq "form input[type=`password`]") (Some (u "form")) ].

(** A field whose placeholder has 40 characters *)
Definition long_placeholder_html : str :=
  uq "<html><head><title>Sign up</title></head><body><form><input type=`email` placeholder=`Enter the e-mail address of your account`></form></body></html>".

(** A parser that throws on every input *)
Definition failing_parse : str -> option document := fun _ => None.

(** [n] nested [div] elements around [inner] *)
Definition nest (n : nat) (inner : node) : node :=
  Nat.iter n (fun x => Element (u "div") [] [x]) inner.

(** A button below six nested [div]s without text of their own; the
    outermost has the class [nav-link], the others no attribute. *)
Definition deep_doc : document :=
  Element (u "html") []
    [Element (u "head") [] [];
     Element (u "body") []
       [Element (u "div") [(u "class", u "nav-link")]
          [nest 5 (Element (u "button") [] [Text (u "Go")])]]].

(** The outermost [div] of [deep_doc], the third, the sixth, and the
    button *)
Definition outer_div : elem := [0; 1].
Definition third_div : elem := [0; 0; 0; 1].
Definition sixth_div : elem := [0; 0; 0; 0; 0; 0; 1].
Definition deep_button : elem := [0; 0; 0; 0; 0; 0; 0; 1].

(** Two links whose selector-cache keys are both [a-x-y--], the second
    with the id [x-y] *)
Definition colliding_html : str :=
  uq "<html><head></head><body><a id=`x` class=`y-` href=`/one`>One</a><a id=`x-y` href=`/two`>Two</a></body></html>".


Definition colliding_doc : document :=
  Element (u "html") []
    [Element (u "head") [] [];
     Element (u "body") []
       [Element (u "a") [(u "id", u "x"); (u "class", u "y-"); (u "href", u "/one")]
          [Text (u "One")];
        Element (u "a") [(u "id", u "x-y"); (u "href", u "/two")] [Text (u "Two")]]].



Definition labels_of (r : exn + CompSnapshot.t) : list str :=
  match r with
  | inr snap => map Elem.text (CompSnapshot.elems snap)
  | inl _ => []
  end.

(** A link in the navigation and a link in the footer *)
Definition two_links_html : str :=
  uq "<html><head></head><body><nav><a href=`/home`>Home</a></nav><footer><a href=`/terms`>Terms</a></footer></body></html>".


(** A hidden button beside a visible one *)
Definition hidden_html : str :=
  uq "<html><head></head><body><button style=`display:none`>Hidden</button><button>Visible</button></body></html>".

(** * Statements *)

Definition valid_opts (opts : CompOpts) : Prop :=
  (0 < default 1000 (maxText opts))%Z /\ (0 < default 15 (maxElems opts))%Z.

Definition bare_selector (e : Elem.t) : Prop :=
  Elem.sel e = u "button" \/ Elem.sel e = u "a" \/ Elem.sel e = u "input".

Definition short_label (e : Elem.t) : Prop :=
  Elem.type e <> input -> length (Elem.text e) <= 30.

Definition unwrapped_ok (doc : document) (e : elem) : Prop :=
  isUselessWrapper doc e = false.

(** The chain of single children below [e] leaves the wrappers within
    [budget] levels. *)
Definition settles (doc : document) (budget : nat) (e : elem) : Prop :=
  exists n, n <= budget
    /\ isUselessWrapper doc (Nat.iter n (extractMeaningfulChild doc) e) = false.




Definition hex_digit (c : char) : bool :=
  is_digit c || in_range 97 102 c || in_range 65 70 c.

(** An id that looks generated: the word [auto], [gen] or [temp] in any
    case, eight or more hexadecimal digits, or one or more decimal
    digits. *)
Definition looks_generated (i : str) : bool :=
  eqb_nocase (u "auto") i || eqb_nocase (u "gen") i || eqb_nocase (u "temp") i
  || ((8 <=? length i) && forallb hex_digit i)
  || ((1 <=? length i) && forallb is_digit i).

(** The spec's meaningful id: it does not look generated and its length
    is strictly between 2 and 30. *)
Definition meaningful_id (i : str) : Prop :=
  looks_generated i = false /\ 2 < length i < 30.

Definition is_some {A} (o : option A) : bool :=
  match o with Some _ => true | None => false end.

(** [a] occurs in [b] *)
Definition substr (a b : str) : Prop := exists pre post, b = pre ++ a ++ post.

(** Replacing every occurrence of one character *)
Definition subst_char (c : char) (by_ : str) (s : str) : str :=
  flat_map (fun x => if (c =? x)%N then by_ else [x]) s.

(** What [escapeHtml] does to one character *)
Definition escape_char (x : char) : str :=
  if (38 =? x)%N then u "&amp;"
  else if (60 =? x)%N then u "&lt;"
  else if (62 =? x)%N then u "&gt;"
  else if (34 =? x)%N then u "&quot;"
  else if (39 =? x)%N then u "&#x27;"
  else [x].

Definition markup_char (c : char) : Prop :=
  c = 60%N \/ c = 62%N \/ c = 34%N \/ c = 39%N.

(** * Further statements *)

(** One call of [tiny]: the clock reading, the markup, the options *)
Record call := {
  call_now : Z;
  call_html : str;
  call_opts : CompOpts
}.

(** The caches after a run of calls *)
Fixpoint run_calls (parse : str -> option document) (calls : list call)
    (st : caches) : caches :=
  match calls with
  | [] => st
  | c :: calls' =>
      run_calls parse calls'
        (snd (tiny parse (call_now c) (call_html c) (call_opts c) st))
  end.


Definition visible_char (c : char) : bool := negb (is_ws c).

(** The element is an [input], or its text has a character that is no
    white space. *)
Definition labelled (doc : document) (e : elem) : Prop :=
  tagName doc e = u "input" \/ existsb visible_char (textContent doc e) = true.

Definition own_text (n : node) : str :=
  match n with Text d => d | _ => [] end.

(** The step of [groupElementsByContext] for one element *)
Definition group_step (groups : list (str * list Elem.t)) (elem : Elem.t)
    : list (str * list Elem.t) :=
  let context := contextOf elem in
  let groups := if map_has context groups then groups else map_set context [] groups in
  map_set context (map_get_list context groups ++ [elem]) groups.

(** The elements whose context is [k], in their order *)
Definition with_context (k : str) (elements : list Elem.t) : list Elem.t :=
  List.filter (fun e => eqb (contextOf e) k) elements.

(** The elements whose context is none of [ks], in their order *)
Definition with_no_context (ks : list str) (elements : list Elem.t) : list Elem.t :=
  List.filter (fun e => negb (elem_of_strs (contextOf e) ks)) elements.

(** The words of [meaningfulClassPattern] *)
Definition meaningful_words : list str :=
  map u
    ["btn"; "button"; "link"; "nav"; "menu"; "form"; "input"; "search";
     "login"; "header"; "footer"; "main"; "primary"; "secondary";
     "submit"; "cancel"; "close"; "back"; "next"; "prev"; "home"; "user";
     "account"; "profile"; "settings"; "logout"; "signin"; "signup"]%string.

(** Two continuations agree on whether they succeed, the second reading
    the input in upper case. *)
Definition case_blind {A} (K K' : @cont A) : Prop :=
  forall j s c c', is_some (K j s c) = is_some (K' j (map upperA s) c').

(** The polynomial hash with multiplier 31, over the integers *)
Definition poly31 (s : str) : Z :=
  fold_left (fun h c => (31 * h + Z.of_N c)%Z) s 0%Z.

Definition digit36_val (c : char) : Z :=
  if (c <? 58)%N then (Z.of_N c - 48)%Z else (Z.of_N c - 87)%Z.

(** Reading back a number written in base 36 *)
Definition ofString36 (s : str) : Z :=
  let value := fold_left (fun v c => (36 * v + digit36_val c)%Z) in
  match s with
  | 45%N :: digits => (- value digits 0)%Z
  | _ => value s 0%Z
  end.

(** The length of the run of white space at the head of [s] *)
Fixpoint wsrun (s : str) : nat :=
  match s with
  | c :: s' => if is_ws c then S (wsrun s') else 0
  | [] => 0
  end.

(** Every run of white space replaced by one space; [in_ws] says that
    the characters read last were white space. *)
Fixpoint squeeze (in_ws : bool) (s : str) : str :=
  match s with
  | [] => []
  | c :: s' =>
      if is_ws c then (if in_ws then squeeze true s' else 32%N :: squeeze true s')
      else c :: squeeze false s'
  end.

(** No two white-space characters stand side by side. *)
Fixpoint spaced (s : str) : bool :=
  match s with
  | a :: s' =>
      match s' with
      | b :: _ => negb (is_ws a && is_ws b) && spaced s'
      | [] => true
      end
  | [] => true
  end.

(** The text captured by a match holds no line terminator. *)
Definition one_line (o : option (nat * option str)) : Prop :=
  match o with
  | Some (_, Some t) => Forall (fun c => is_lt c = false) t
  | _ => True
  end.

(** The element carries no context, as the elements of the
    regular-expression pass do. *)
Definition contextless (e : Elem.t) : Prop := Elem.context e = None.



(** A character that the title pattern lets into its group and that
    does not start the closing tag *)
Definition title_char (c : char) : Prop := is_lt c = false /\ c <> 60%N.

(** * Properties *)

(** ** The running examples *)

Example getTitle_login : getTitle login_html = u "Login".
Proof. vm_compute. reflexivity. Qed.

Example getText_login : getText login_html = u "Login Sign In".
Proof. vm_compute. reflexivity. Qed.

Example getText_script :
  getText (u "<p>A</p><script>danger()</script><p>B</p>") = u "A B".
Proof. vm_compute. reflexivity. Qed.

Example parse_login : Markup.parse login_html = Some login_doc.
Proof. vm_compute. reflexivity. Qed.

Example getTitle_fallback : getTitle (u "<p>no title here</p>") = u "Page".
Proof. vm_compute. reflexivity. Qed.

Example hidden_button_excluded :
  labels_of (fst (tiny Markup.parse 0 hidden_html no_opts (fresh 0))) = [u "Visible"].
Proof. vm_compute. reflexivity. Qed.

Example text_truncated :
  fst (tiny failing_parse 0 (u "<p>The quick brown fox</p>")
         {| maxText := Some 9%Z; maxElems := None |} (fresh 0))
  = inr (CompSnapshot.mk (u "Page") (u "The quick") []).
Proof. vm_compute. reflexivity. Qed.

Example meaningful_ids :
  map isMeaningfulId
      [u "login-btn"; u "12345"; u "deadBEEF00"; u "Temp"; u "ab"; u "cafe"]
  = [true; false; false; false; false; true].
Proof. vm_compute. reflexivity. Qed.

Example meaningful_classes :
  map isMeaningfulClass [u "btn"; u "Primary"; u "col-"; u "btn-primary"; u "flex"]
  = [true; true; false; false; false].
Proof. vm_compute. reflexivity. Qed.

Example hash_of_login : generateHtmlHash login_html = u "3et22".
Proof. vm_compute. reflexivity. Qed.

(** ** Helpers *)

Lemma slice0_length {A} (n : Z) (l : list A) :
  (0 <= n)%Z -> (Z.of_nat (length (slice0 n l)) <= n)%Z.
Proof.
  intros Hn. unfold slice0.
  destruct (Z.ltb_spec n 0); [lia|].
  rewrite length_take. lia.
Qed.

Lemma slice0_take {A} (n : Z) (l : list A) : exists k, slice0 n l = take k l.
Proof. unfold slice0. destruct (n <? 0)%Z; eauto. Qed.

Lemma slice0_length_le {A} (n : Z) (l : list A) :
  length (slice0 n l) <= length l.
Proof. destruct (slice0_take n l) as [k ->]. rewrite length_take. lia. Qed.

Lemma Forall_slice0 {A} (P : A -> Prop) (n : Z) (l : list A) :
  Forall P l -> Forall P (slice0 n l).
Proof. destruct (slice0_take n l) as [k ->]. apply Forall_take. Qed.

Lemma tiny_unfold parse now html opts st :
  fst (tiny parse now html opts st) =
  if (5000000 <? len html)%Z then inl too_large
  else inr (CompSnapshot.mk (getTitle html)
              (slice0 (default 1000%Z (maxText opts)) (getText html))
              (slice0 (default 15%Z (maxElems opts))
                 (fst (getElems parse html (snd (cleanupCaches now st)))))).
Proof.
  unfold tiny, bind.
  destruct (cleanupCaches now st) as [[] st1]; simpl.
  destruct (5000000 <? len html)%Z; [reflexivity|].
  destruct (getElems parse html st1) as [elems st2]. reflexivity.
Qed.

Lemma getElems_unfold parse html st :
  fst (getElems parse html st) =
  match fst (getElemsDom parse html st) with
  | [] => getElemsRegex html
  | domResult => domResult
  end.
Proof.
  unfold getElems, bind.
  destruct (getElemsDom parse html st) as [[|e l] st1]; reflexivity.
Qed.

Lemma getElemsDom_length parse html st :
  length (fst (getElemsDom parse html st)) <= 50.
Proof.
  unfold getElemsDom.
  match goal with |- context [match ?f with Some _ => _ | None => _ end] =>
    destruct f as [[d st1]|] end; [|simpl; lia].
  destruct (mapM _ _ _) as [elems st2]; simpl.
  pose proof (slice0_length 50 elems ltac:(lia)). lia.
Qed.

(** ** Bounds, the size guard and the choice of strategy *)

(** C1. For markup of at most 5,000,000 characters and options whose
    [maxText] and [maxElems] are positive (1000 and 15 when absent),
    [tiny] returns a snapshot with [text.length <= maxText] and
    [elems.length <= maxElems]. *)
Theorem tiny_bounds parse now html opts st :
  (len html <= 5000000)%Z ->
  valid_opts opts ->
  exists snap,
    fst (tiny parse now html opts st) = inr snap
    /\ (len (CompSnapshot.text snap) <= default 1000 (maxText opts))%Z
    /\ (Z.of_nat (length (CompSnapshot.elems snap)) <= default 15 (maxElems opts))%Z.
Proof.
  intros Hlen [Ht He]. rewrite tiny_unfold.
  destruct (Z.ltb_spec 5000000 (len html)); [lia|].
  eexists; split; [reflexivity|]. simpl. unfold len.
  split; apply slice0_length; lia.
Qed.

Lemma tiny_bounds_witness :
  exists snap,
    fst (tiny Markup.parse 0 login_html {| maxText := Some 5%Z; maxElems := Some 2%Z |}
           (fresh 0)) = inr snap
    /\ (len (CompSnapshot.text snap) <= 5)%Z
    /\ (Z.of_nat (length (CompSnapshot.elems snap)) <= 2)%Z.
Proof.
  apply (tiny_bounds Markup.parse 0 login_html
           {| maxText := Some 5%Z; maxElems := Some 2%Z |} (fresh 0)).
  - vm_compute. discriminate.
  - split; reflexivity.
Defined.



Lemma getElemsRegex_bare html : Forall bare_selector (getElemsRegex html).
Proof.
  unfold getElemsRegex. rewrite !Forall_app. repeat split.
  - apply Forall_flat_map, Forall_forall. intros m _.
    destruct (truthy _); [|constructor].
    constructor; [left; reflexivity|constructor].
  - apply Forall_flat_map, Forall_forall. intros m _.
    destruct (truthy _); [|constructor].
    constructor; [right; left; reflexivity|constructor].
  - apply Forall_map, Forall_forall. intros m _. right; right; reflexivity.
Qed.

(** C8. The element list of a snapshot comes from one strategy: it is
    (a prefix of) the result of the DOM pass whenever that pass yields
    an element, and (a prefix of) the result of the regular-expression
    pass only when the DOM pass yields none; every element then has
    the selector [button], [a] or [input]. *)
Theorem getElems_single_strategy parse now html opts st :
  (len html <= 5000000)%Z ->
  exists snap,
    fst (tiny parse now html opts st) = inr snap
    /\ let dom := fst (getElemsDom parse html (snd (cleanupCaches now st))) in
       let n := default 15%Z (maxElems opts) in
       (dom <> [] /\ CompSnapshot.elems snap = slice0 n dom)
       \/ (dom = [] /\ CompSnapshot.elems snap = slice0 n (getElemsRegex html)
           /\ Forall bare_selector (CompSnapshot.elems snap)).
Proof.
  intros Hlen. rewrite tiny_unfold.
  destruct (Z.ltb_spec 5000000 (len html)); [lia|].
  eexists; split; [reflexivity|]. simpl.
  rewrite getElems_unfold.
  destruct (fst (getElemsDom parse html _)) as [|e l].
  - right. repeat split. apply Forall_slice0, getElemsRegex_bare.
  - left. split; [discriminate|reflexivity].
Qed.

Lemma getElems_single_strategy_witness :
  exists snap,
    fst (tiny Markup.parse 0 login_html no_opts (fresh 0)) = inr snap
    /\ let dom := fst (getElemsDom Markup.parse login_html
                         (snd (cleanupCaches 0 (fresh 0)))) in
       let n := default 15%Z (maxElems no_opts) in
       (dom <> [] /\ CompSnapshot.elems snap = slice0 n dom)
       \/ (dom = [] /\ CompSnapshot.elems snap = slice0 n (getElemsRegex login_html)
           /\ Forall bare_selector (CompSnapshot.elems snap)).
Proof.
  apply (getElems_single_strategy Markup.parse 0 login_html no_opts (fresh 0)).
  vm_compute. discriminate.
Defined.

(** C9. When the DOM pass yields an element, the snapshot has at most
    50 elements whatever [maxElems] is. When it yields none, the
    snapshot holds the first [maxElems] results of the
    regular-expression pass, which has no bound of its own: on
    [many_inputs] it finds 51 elements. *)
Theorem dom_pass_cap parse now html opts st :
  (len html <= 5000000)%Z ->
  exists snap,
    fst (tiny parse now html opts st) = inr snap
    /\ let dom := fst (getElemsDom parse html (snd (cleanupCaches now st))) in
       (dom <> [] -> length (CompSnapshot.elems snap) <= 50)
       /\ (dom = [] ->
           CompSnapshot.elems snap
           = slice0 (default 15%Z (maxElems opts)) (getElemsRegex html))
       /\ length (getElemsRegex many_inputs) = 51.
Proof.
  intros Hlen. rewrite tiny_unfold.
  destruct (Z.ltb_spec 5000000 (len html)); [lia|].
  eexists; split; [reflexivity|]. simpl.
  rewrite getElems_unfold.
  pose proof (getElemsDom_length parse html (snd (cleanupCaches now st))) as Hcap.
  destruct (fst (getElemsDom parse html _)) as [|e l] eqn:Hdom.
  - split; [congruence|]. split; [reflexivity | vm_compute; reflexivity].
  - split; [|split; [discriminate | vm_compute; reflexivity]].
    intros _. etransitivity; [apply slice0_length_le|exact Hcap].
Qed.

Lemma dom_pass_cap_witness :
  exists snap,
    fst (tiny Markup.parse 0 many_inputs {| maxText := None; maxElems := Some 100%Z |}
           (fresh 0)) = inr snap
    /\ length (CompSnapshot.elems snap) = 51.
Proof.
  destruct (dom_pass_cap Markup.parse 0 many_inputs
              {| maxText := None; maxElems := Some 100%Z |} (fresh 0))
    as (snap & Hs & _ & Hregex & Hn).
  - vm_compute. discriminate.
  - exists snap. split; [exact Hs|].
    rewrite Hregex; [vm_compute; reflexivity | vm_compute; reflexivity].
Defined.

(** ** The login form *)

Lemma getElemsDom_ext parse1 parse2 html st :
  parse1 html = parse2 html ->
  getElemsDom parse1 html st = getElemsDom parse2 html st.
Proof. intros H. unfold getElemsDom. rewrite H. reflexivity. Qed.

Lemma tiny_ext parse1 parse2 now html opts st :
  parse1 html = parse2 html ->
  fst (tiny parse1 now html opts st) = fst (tiny parse2 now html opts st).
Proof.
  intros H. rewrite !tiny_unfold, !getElems_unfold.
  rewrite (getElemsDom_ext parse1 parse2) by exact H. reflexivity.
Qed.

Lemma cleanupCaches_fresh now t0 :
  snd (cleanupCaches now (fresh t0)) = fresh t0
  \/ snd (cleanupCaches now (fresh t0)) = fresh now.
Proof.
  unfold cleanupCaches, fresh; simpl.
  destruct (CACHE_TTL <? now - t0)%Z; simpl; auto.
Qed.

(** C3, as the code has it. On the login form, parsed into the tree
    [login_doc], and with default options, [tiny] called with empty
    caches returns the title [Login] and exactly three elements, of
    kinds [btn], [input], [input] in this order: the scan takes the
    [button] selector before the [input] selector. The button's label
    is [Sign In]. *)
Theorem login_form parse now t0 :
  parse login_html = Some login_doc ->
  fst (tiny parse now login_html no_opts (fresh t0)) = inr login_snapshot
  /\ map Elem.type (CompSnapshot.elems login_snapshot) = [btn; input; input].
Proof.
  intros H. split; [|reflexivity].
  rewrite (tiny_ext parse Markup.parse) by (rewrite H; symmetry; exact parse_login).
  rewrite tiny_unfold.
  destruct (cleanupCaches_fresh now t0) as [-> | ->]; vm_compute; reflexivity.
Qed.

Lemma login_form_witness :
  fst (tiny Markup.parse 0 login_html no_opts (fresh 0)) = inr login_snapshot
  /\ map Elem.type (CompSnapshot.elems login_snapshot) = [btn; input; input].
Proof.
  apply (login_form Markup.parse 0 0). vm_compute. reflexivity.
Defined.

(** C3 as stated fails: the kinds do not come in the order [input],
    [input], [button]. *)
Lemma login_form_order :
  exists snap,
    fst (tiny Markup.parse 0 login_html no_opts (fresh 0)) = inr snap
    /\ CompSnapshot.title snap = u "Login"
    /\ map Elem.type (CompSnapshot.elems snap) = [btn; input; input]
    /\ map Elem.type (CompSnapshot.elems snap) <> [input; input; btn].
Proof.
  exists login_snapshot. split; [vm_compute; reflexivity|].
  split; [reflexivity|]. split; [reflexivity|discriminate].
Qed.

(** ** Labels *)

Lemma slice0_30_length {A} (l : list A) : length (slice0 30 l) <= 30.
Proof. pose proof (slice0_length 30 l ltac:(lia)). lia. Qed.

Lemma or_else_length (a b : str) (n : nat) :
  length a <= n -> length b <= n -> length (or_else a b) <= n.
Proof. destruct a; simpl; auto. Qed.

Lemma elemToElem_label doc element st :
  short_label (fst (elemToElem doc element st)).
Proof.
  unfold elemToElem, bind.
  destruct (generateMeaningfulSelector doc element st) as [s st1]. simpl.
  unfold toElem.
  repeat match goal with |- context [if ?b then _ else _] => destruct b end;
    intros Hk; simpl in *; try congruence; try apply slice0_30_length.
  apply or_else_length; [apply slice0_30_length|vm_compute; lia].
Qed.

Lemma mapM_Forall {A B} (P : B -> Prop) (f : A -> M B) (l : list A) :
  (forall a st, P (fst (f a st))) ->
  forall st, Forall P (fst (mapM f l st)).
Proof.
  intros Hf. induction l as [|a l IH]; intros st; simpl.
  - constructor.
  - unfold bind. specialize (Hf a st). destruct (f a st) as [b st1].
    specialize (IH st1). destruct (mapM f l st1) as [bs st2].
    simpl in *. constructor; assumption.
Qed.

Lemma getElemsDom_label parse html st :
  Forall short_label (fst (getElemsDom parse html st)).
Proof.
  unfold getElemsDom.
  match goal with |- context [match ?f with Some _ => _ | None => _ end] =>
    destruct f as [[d st1]|] end; [|constructor].
  pose proof (mapM_Forall short_label (elemToElem d) (findMeaningfulElements d)
                (elemToElem_label d) st1) as H.
  destruct (mapM _ _ _) as [elems st2]; simpl in *.
  apply Forall_slice0, H.
Qed.

Lemma getElemsRegex_label html : Forall short_label (getElemsRegex html).
Proof.
  unfold getElemsRegex. rewrite !Forall_app. repeat split.
  - apply Forall_flat_map, Forall_forall. intros m _.
    destruct (truthy _); [|constructor].
    constructor; [|constructor]. intros _. apply slice0_30_length.
  - apply Forall_flat_map, Forall_forall. intros m _.
    destruct (truthy _); [|constructor].
    constructor; [|constructor]. intros _. apply slice0_30_length.
  - apply Forall_map, Forall_forall. intros m _ Hk. simpl in Hk. congruence.
Qed.

(** Where the bound of 30 characters holds: every element of kind
    [btn], [link] or [select] in a snapshot has a label of at most 30
    characters, on the DOM path and on the regular-expression path. *)
Theorem label_bound parse now html opts st :
  (len html <= 5000000)%Z ->
  exists snap,
    fst (tiny parse now html opts st) = inr snap
    /\ Forall short_label (CompSnapshot.elems snap).
Proof.
  intros Hlen. rewrite tiny_unfold.
  destruct (Z.ltb_spec 5000000 (len html)); [lia|].
  eexists; split; [reflexivity|]. simpl.
  apply Forall_slice0. rewrite getElems_unfold.
  pose proof (getElemsDom_label parse html (snd (cleanupCaches now st))) as Hdom.
  destruct (fst (getElemsDom parse html _)); [apply getElemsRegex_label|exact Hdom].
Qed.

Lemma label_bound_witness :
  exists snap,
    fst (tiny Markup.parse 0 login_html no_opts (fresh 0)) = inr snap
    /\ Forall short_label (CompSnapshot.elems snap).
Proof.
  apply (label_bound Markup.parse 0 login_html no_opts (fresh 0)).
  vm_compute. discriminate.
Defined.

(** C4 on a field whose placeholder has 40 characters: the label of the
    [input] element is the whole placeholder, on the DOM path and on
    the regular-expression path. The branches for [button], [a],
    [select] and unknown tags cut the label with [slice(0, 30)]; the
    branches for [input] and [textarea] do not. *)
Lemma long_placeholder_label :
  let label := u "Enter the e-mail address of your account" in
  length label = 40
  /\ fst (tiny Markup.parse 0 long_placeholder_html no_opts (fresh 0))
     = inr (CompSnapshot.mk (u "Sign up") (u "Sign up")
              [Elem.mk input label (uq "form input[type=`email`]") (Some (u "form"))])
  /\ fst (tiny failing_parse 0 long_placeholder_html no_opts (fresh 0))
     = inr (CompSnapshot.mk (u "Sign up") (u "Sign up")
              [Elem.mk input label (u "input") None]).
Proof. vm_compute. repeat split. Qed.

(** ** Wrapper unwrapping *)

Section Unwrap.
Variable doc : document.

Lemma unwrapElement_fixed budget e :
  isUselessWrapper doc e = false -> unwrapElement doc budget e = e.
Proof. intros H. destruct budget; simpl; [|rewrite H]; reflexivity. Qed.

Lemma unwrapElement_settles budget :
  forall e, settles doc budget e ->
            isUselessWrapper doc (unwrapElement doc budget e) = false.
Proof.
  induction budget as [|b IH]; intros e (n & Hn & Hw); simpl.
  - replace n with 0 in Hw by lia. exact Hw.
  - destruct (isUselessWrapper doc e) eqn:W; [|exact W].
    destruct n as [|n]; [simpl in Hw; congruence|].
    apply IH. exists n. split; [lia|].
    rewrite Nat.iter_swap. exact Hw.
Qed.

Lemma push_new_NoDup x acc : NoDup acc -> NoDup (push_new x acc).
Proof.
  intros H. unfold push_new. case_bool_decide; [exact H|].
  apply NoDup_app. repeat split; [exact H | | apply NoDup_singleton].
  intros y Hy Hy'. apply list_elem_of_singleton in Hy'. subst. contradiction.
Qed.

Lemma push_new_Forall (P : elem -> Prop) x acc :
  P x -> Forall P acc -> Forall P (push_new x acc).
Proof.
  intros Hx H. unfold push_new. case_bool_decide; [exact H|].
  apply Forall_app. split; [exact H|]. constructor; [exact Hx|constructor].
Qed.

Lemma unwrap_result l :
  forall acc,
    NoDup acc -> Forall (unwrapped_ok doc) acc -> Forall (settles doc 5) l ->
    NoDup (foldl (unwrap_step doc) acc l) /\ Forall (unwrapped_ok doc) (foldl (unwrap_step doc) acc l).
Proof.
  induction l as [|x l IH]; intros acc Hnd Hok Hl; simpl; [auto|].
  apply Forall_cons in Hl as [Hx Hl].
  apply IH; [apply push_new_NoDup, Hnd | | exact Hl].
  apply push_new_Forall; [|exact Hok].
  apply unwrapElement_settles, Hx.
Qed.

Lemma unwrap_stable l :
  forall acc,
    NoDup (acc ++ l) -> Forall (unwrapped_ok doc) l -> foldl (unwrap_step doc) acc l = acc ++ l.
Proof.
  induction l as [|x l IH]; intros acc Hnd Hok; simpl.
  - rewrite app_nil_r. reflexivity.
  - apply Forall_cons in Hok as [Hx Hok].
    unfold unwrap_step at 2. rewrite (unwrapElement_fixed 5 x Hx).
    unfold push_new.
    apply NoDup_app in Hnd as Hparts. destruct Hparts as (_ & Hdisj & _).
    case_bool_decide as Hin.
    + exfalso. apply (Hdisj x Hin). left.
    + rewrite IH; [rewrite <- app_assoc; reflexivity | | exact Hok].
      rewrite <- app_assoc. exact Hnd.
Qed.

(** C6, as the code has it. On a list whose elements leave their
    chain of wrappers within the five levels the pass descends,
    running [unwrapUselessWrappers] on its own output changes
    nothing. *)
Theorem unwrap_idempotent (elements : list elem) :
  Forall (settles doc 5) elements ->
  unwrapUselessWrappers doc (unwrapUselessWrappers doc elements)
  = unwrapUselessWrappers doc elements.
Proof.
  intros H. unfold unwrapUselessWrappers.
  destruct (unwrap_result elements [] (NoDup_nil_2) (Forall_nil_2 _) H) as [Hnd Hok].
  rewrite (unwrap_stable _ []); [reflexivity|exact Hnd|exact Hok].
Qed.
End Unwrap.

Lemma unwrap_idempotent_witness :
  unwrapUselessWrappers deep_doc
    (unwrapUselessWrappers deep_doc [third_div; deep_button])
  = unwrapUselessWrappers deep_doc [third_div; deep_button].
Proof.
  apply (unwrap_idempotent deep_doc [third_div; deep_button]).
  constructor; [|constructor; [|constructor]].
  - exists 4. split; [lia | vm_compute; reflexivity].
  - exists 0. split; [lia | vm_compute; reflexivity].
Defined.

(** C6 as stated fails: the pass descends five levels, so from the
    outermost of six nested wrappers it stops at the sixth, and a
    second pass goes on to the button. *)
Lemma unwrap_twice_differs :
  unwrapUselessWrappers deep_doc [outer_div] = [sixth_div]
  /\ unwrapUselessWrappers deep_doc (unwrapUselessWrappers deep_doc [outer_div])
     = [deep_button]
  /\ isUselessWrapper deep_doc sixth_div = true.
Proof. vm_compute. repeat split. Qed.

(** ** The pattern of generated ids *)

Section EndAnchored.
Context {A : Type} (K : @cont A).
Hypothesis K_end :
  forall j s c, is_some (K j s c) = match s with [] => true | _ => false end.

Lemma lit_end a :
  forall s i cap, is_some (lit true a K i s cap) = eqb_nocase a s.
Proof.
  unfold eqb_nocase.
  induction a as [|x a IH]; intros s i cap; simpl.
  - rewrite K_end. destruct s; reflexivity.
  - destruct s as [|c s]; [reflexivity|]. simpl. unfold chr_match.
    destruct (upperA x =? upperA c)%N; [apply IH|reflexivity].
Qed.

Lemma rep_end neg p s :
  forall lo i cap,
    is_some (rep true true lo None neg p K i s cap)
    = (lo <=? length s) && forallb (cls_match true neg p) s.
Proof.
  induction s as [|c s IH]; intros lo i cap.
  - simpl. destruct lo; [rewrite K_end|]; reflexivity.
  - cbn [rep room andb forallb length].
    destruct (cls_match true neg p c) eqn:Hc.
    + destruct lo as [|lo].
      * specialize (IH 0 (S i) cap). cbn [less] in *.
        destruct (rep true true 0 None neg p K (S i) s cap).
        -- simpl in *. exact IH.
        -- rewrite K_end. simpl in *. exact IH.
      * cbn [less]. rewrite IH. reflexivity.
    + destruct lo; [rewrite K_end|]; simpl; rewrite ?andb_false_r; reflexivity.
Qed.
End EndAnchored.

Lemma is_some_orelse {A} (o o' : option A) :
  is_some (match o with Some x => Some x | None => o' end) = is_some o || is_some o'.
Proof. destruct o; reflexivity. Qed.

Lemma exec_from_bol ci r s :
  forall i, exec_from ci (Seq Bol r) (S i) s = None.
Proof. induction s as [|c s IH]; intros i; simpl; [reflexivity|apply IH]. Qed.

Lemma test_bol ci r s :
  test ci (Seq Bol r) s = is_some (match_at ci (Seq Bol r) 0 s).
Proof.
  unfold test, exec. destruct s as [|c s]; simpl.
  - destruct (match_at ci (Seq Bol r) 0 []) as [[j cap]|]; reflexivity.
  - destruct (match_at ci (Seq Bol r) 0 (c :: s)) as [[j cap]|]; [reflexivity|].
    fold (exec_from ci (Seq Bol r) 1 s). rewrite exec_from_bol. reflexivity.
Qed.

Ltac case_ranges :=
  apply eq_iff_eq_true;
  rewrite ?orb_true_iff, ?andb_true_iff, ?orb_false_iff, ?andb_false_iff,
    ?N.leb_le, ?N.leb_gt in *;
  lia.

Lemma cls_hex c : cls_match true false hex_lower c = hex_digit c.
Proof.
  unfold cls_match, hex_digit, hex_lower, is_digit, in_range, lowerA, upperA.
  cbn [xorb andb].
  destruct (is_upperA c) eqn:U; destruct (is_lowerA c) eqn:L;
    unfold is_upperA, is_lowerA in *; case_ranges.
Qed.

Lemma cls_digit c : cls_match true false is_digit c = is_digit c.
Proof.
  unfold cls_match, is_digit, in_range, lowerA, upperA.
  cbn [xorb andb].
  destruct (is_upperA c) eqn:U; destruct (is_lowerA c) eqn:L;
    unfold is_upperA, is_lowerA in *; case_ranges.
Qed.

Lemma forallb_pointwise {A} (f g : A -> bool) :
  (forall x, f x = g x) -> forall l, forallb f l = forallb g l.
Proof. intros H. induction l as [|x l IH]; simpl; [|rewrite H, IH]; reflexivity. Qed.

(** The pattern of the source matches exactly the ids that look
    generated. *)
Lemma meaninglessIdPattern_spec i :
  test true meaninglessIdPattern i = looks_generated i.
Proof.
  unfold meaninglessIdPattern. cbn [seq]. rewrite test_bol.
  unfold match_at. cbn [run alt at_least plus map].
  set (K := fun (j : nat) (s' : str) (_ : option str) =>
              match s' with
              | [] => Some (j, Some (take (j - 0) i))
              | _ :: _ => None
              end).
  assert (HK : forall j s c, is_some (K j s c) = match s with [] => true | _ => false end)
    by (intros j [|? ?] ?; reflexivity).
  rewrite !is_some_orelse, !(lit_end K HK), !(rep_end K HK).
  unfold looks_generated. rewrite !orb_assoc.
  rewrite (forallb_pointwise _ _ cls_hex), (forallb_pointwise _ _ cls_digit).
  reflexivity.
Qed.

Lemma isMeaningfulId_spec i : isMeaningfulId i = true <-> meaningful_id i.
Proof.
  unfold isMeaningfulId, meaningful_id, len. rewrite meaninglessIdPattern_spec.
  rewrite !andb_true_iff, negb_true_iff, !Z.ltb_lt. intuition lia.
Qed.


(** ** Selectors *)





Example parse_colliding : Markup.parse colliding_html = Some colliding_doc.
Proof. vm_compute. reflexivity. Qed.



(** ** The cache layer *)


Section Transparency.
Variable parse : str -> option document.




End Transparency.


(** ** Restoration *)

Lemma eqb_eq (a b : str) : eqb a b = true <-> a = b.
Proof.
  revert b. induction a as [|x a IH]; intros [|y b]; simpl; split;
    try discriminate; try reflexivity.
  - intros H. apply andb_prop in H as [Hx Hab].
    apply N.eqb_eq in Hx. apply IH in Hab. congruence.
  - intros [= -> ->]. rewrite N.eqb_refl. simpl. apply IH. reflexivity.
Qed.

Lemma eqb_refl (a : str) : eqb a a = true.
Proof. apply eqb_eq. reflexivity. Qed.

Lemma eqb_neq (a b : str) : eqb a b = false <-> a <> b.
Proof.
  split.
  - intros H Heq. apply eqb_eq in Heq. congruence.
  - intros H. destruct (eqb a b) eqn:E; [|reflexivity].
    apply eqb_eq in E. contradiction.
Qed.

Lemma assoc_map_set_eq {V} k (v : V) m : assoc k (map_set k v m) = Some v.
Proof.
  induction m as [|[k' v'] m IH]; simpl.
  - rewrite eqb_refl. reflexivity.
  - destruct (eqb k' k) eqn:E; simpl.
    + apply eqb_eq in E. subst. rewrite eqb_refl. reflexivity.
    + destruct (eqb k k') eqn:E'; [|exact IH].
      apply eqb_eq in E'. subst. rewrite eqb_refl in E. discriminate.
Qed.

Lemma assoc_map_set_ne {V} k k' (v : V) m :
  k <> k' -> assoc k' (map_set k v m) = assoc k' m.
Proof.
  intros Hne. induction m as [|[k0 v0] m IH]; simpl.
  - destruct (eqb k' k) eqn:E; [|reflexivity].
    apply eqb_eq in E. congruence.
  - destruct (eqb k0 k) eqn:E; simpl.
    + apply eqb_eq in E. subst k0.
      destruct (eqb k' k) eqn:E'; [|reflexivity].
      apply eqb_eq in E'. congruence.
    + destruct (eqb k' k0); [reflexivity|exact IH].
Qed.

Lemma assoc_elem_of {V} k (v : V) m : assoc k m = Some v -> (k, v) ∈ m.
Proof.
  induction m as [|[k' v'] m IH]; simpl; [discriminate|].
  destruct (eqb k k') eqn:E.
  - apply eqb_eq in E. intros [= ->]. subst. left.
  - intros H. right. apply IH, H.
Qed.

Lemma substr_refl a : substr a a.
Proof. exists [], []. rewrite app_nil_r. reflexivity. Qed.

Lemma substr_trans a b c : substr a b -> substr b c -> substr a c.
Proof.
  intros (p & q & ->) (p' & q' & ->).
  exists (p' ++ p), (q ++ q'). rewrite <- !app_assoc. reflexivity.
Qed.

Lemma substr_app_r a b pre : substr a b -> substr a (pre ++ b).
Proof. intros (p & q & ->). exists (pre ++ p), q. rewrite <- app_assoc. reflexivity. Qed.

Lemma substr_app_l a b post : substr a b -> substr a (b ++ post).
Proof. intros (p & q & ->). exists p, (q ++ post). rewrite <- !app_assoc. reflexivity. Qed.

Lemma substr_join sep x l : x ∈ l -> substr x (join sep l).
Proof.
  induction l as [|y l IH]; intros H; [inversion H|].
  apply elem_of_cons in H as [->|H].
  - destruct l; simpl; [apply substr_refl|]. apply substr_app_l, substr_refl.
  - destruct l as [|z l]; [inversion H|].
    change (join sep (y :: z :: l)) with (y ++ sep ++ join sep (z :: l)).
    apply substr_app_r, substr_app_r, IH, H.
Qed.

Lemma elem_of_map_intro {A B} (f : A -> B) (l : list A) (x : A) : x ∈ l -> f x ∈ map f l.
Proof. intros H. apply list_elem_of_fmap. exists x. auto. Qed.

Lemma group_step_spec groups (x e : Elem.t) :
  let step := fun groups elem =>
    let context := contextOf elem in
    let groups := if map_has context groups then groups else map_set context [] groups in
    map_set context (map_get_list context groups ++ [elem]) groups in
  (e = x \/ e ∈ map_get_list (contextOf e) groups) ->
  e ∈ map_get_list (contextOf e) (step groups x).
Proof.
  intros step H. unfold step, map_get_list.
  destruct (decide (contextOf x = contextOf e)) as [Heq|Hne].
  - rewrite <- Heq, assoc_map_set_eq. simpl.
    apply elem_of_app. destruct H as [->|H]; [right; left|left].
    unfold map_get_list in H. rewrite <- Heq in H.
    unfold map_has. destruct (assoc (contextOf x) groups) eqn:E.
    + rewrite E. exact H.
    + simpl in H. inversion H.
  - rewrite assoc_map_set_ne by exact Hne.
    destruct H as [->|H]; [contradiction|].
    unfold map_get_list in H.
    destruct (map_has (contextOf x) groups); [exact H|].
    rewrite assoc_map_set_ne by exact Hne. exact H.
Qed.

Lemma groupElementsByContext_spec elements e :
  e ∈ elements ->
  e ∈ map_get_list (contextOf e) (groupElementsByContext elements).
Proof.
  unfold groupElementsByContext.
  induction elements as [|x l IH] using rev_ind; intros H; [inversion H|].
  rewrite foldl_snoc. apply group_step_spec.
  apply elem_of_app in H as [H|H]; [right; apply IH, H|left].
  apply list_elem_of_singleton in H. exact H.
Qed.

Lemma map_get_list_has {V} k (m : list (str * list V)) x :
  x ∈ map_get_list k m -> map_has k m = true /\ (k, map_get_list k m) ∈ m.
Proof.
  unfold map_get_list, map_has. destruct (assoc k m) as [l|] eqn:E; simpl.
  - intros _. split; [reflexivity|]. apply assoc_elem_of, E.
  - intros H. inversion H.
Qed.

Lemma length_pos_elem {A} (x : A) l : x ∈ l -> (0 <? length l) = true.
Proof. destruct l; intros H; [inversion H|reflexivity]. Qed.

Lemma section_items indent sep (e : Elem.t) l :
  e ∈ l -> substr (elemToHtml e indent) (join sep (map (fun elem => elemToHtml elem indent) l)).
Proof.
  intros H. apply substr_join.
  apply (elem_of_map_intro (fun elem => elemToHtml elem indent)), H.
Qed.

Lemma elem_of_strs_spec s l : elem_of_strs s l = true <-> s ∈ l.
Proof.
  unfold elem_of_strs. rewrite existsb_exists. split.
  - intros (x & Hx & E). apply eqb_eq in E. subst. apply list_elem_of_In, Hx.
  - intros H. exists s. split; [apply list_elem_of_In, H|apply eqb_refl].
Qed.

Lemma nav_rendered l (e : Elem.t) :
  e ∈ l -> substr (elemToHtml e (u "      ")) (generateNavSection l).
Proof.
  intros H. unfold generateNavSection.
  do 4 apply substr_app_r. apply substr_app_l, section_items, H.
Qed.

Lemma header_rendered l (e : Elem.t) :
  e ∈ l -> substr (elemToHtml e (u "    ")) (generateHeaderSection l).
Proof.
  intros H. unfold generateHeaderSection.
  do 2 apply substr_app_r. apply substr_app_l, section_items, H.
Qed.

Lemma form_rendered l (e : Elem.t) :
  e ∈ l -> substr (elemToHtml e (u "      ")) (generateFormSection l).
Proof.
  intros H. unfold generateFormSection.
  do 2 apply substr_app_r. apply substr_app_l, section_items, H.
Qed.

Lemma content_rendered pageText l (e : Elem.t) :
  e ∈ l -> substr (elemToHtml e (u "        ")) (generateContentSection pageText l).
Proof.
  intros H. unfold generateContentSection.
  rewrite (length_pos_elem e l H).
  do 2 apply substr_app_r. apply substr_app_l, substr_join.
  apply elem_of_app. right. apply elem_of_app. right. apply elem_of_app. left.
  apply (elem_of_map_intro (fun elem => elemToHtml elem (u "        "))), H.
Qed.


(** The three parts of the body *)
Lemma body_parts elementsByContext pageText (x : str) :
  let nav :=
    if map_has (u "nav") elementsByContext || map_has (u "nav > menu") elementsByContext then
      let navElems :=
        map_get_list (u "nav") elementsByContext
        ++ map_get_list (u "nav > menu") elementsByContext in
      if 0 <? length navElems then [generateNavSection navElems] else []
    else [] in
  let header :=
    if map_has (u "header") elementsByContext
    then [generateHeaderSection (map_get_list (u "header") elementsByContext)]
    else [] in
  let mainSections :=
    (if 0 <? length (flat_map (fun ctx => map_get_list ctx elementsByContext) formContexts)
     then [generateFormSection
             (flat_map (fun ctx => map_get_list ctx elementsByContext) formContexts)]
     else [])
    ++ (if truthy (trim pageText) || (0 <? length (generalElemsOf elementsByContext))
        then [generateContentSection pageText (generalElemsOf elementsByContext)] else []) in
  x ∈ nav \/ x ∈ header \/ x ∈ mainSections ->
  substr x (generateSemanticBody elementsByContext pageText).
Proof.
  intros nav header mainSections H. unfold generateSemanticBody.
  fold nav. fold header. fold mainSections.
  destruct H as [H|[H|H]].
  - apply substr_join, elem_of_app. left. exact H.
  - apply substr_join, elem_of_app. right. apply elem_of_app. left. exact H.
  - rewrite (length_pos_elem x mainSections H).
    eapply substr_trans; [|apply substr_join, elem_of_app; right;
                            apply elem_of_app; right; left].
    do 2 apply substr_app_r. apply substr_app_l, substr_join, H.
Qed.

Lemma general_elems elementsByContext (e : Elem.t) :
  elem_of_strs (contextOf e) ([u "nav"; u "nav > menu"; u "header"] ++ formContexts) = false ->
  e ∈ map_get_list (contextOf e) elementsByContext ->
  e ∈ generalElemsOf elementsByContext.
Proof.
  intros Hc He. destruct (map_get_list_has _ _ _ He) as [_ Hentry].
  unfold generalElemsOf. apply list_elem_of_In, in_flat_map.
  exists (contextOf e, map_get_list (contextOf e) elementsByContext). split.
  - apply filter_In. split; [apply list_elem_of_In, Hentry|].
    cbv beta. cbn [fst]. rewrite Hc. reflexivity.
  - apply list_elem_of_In, He.
Qed.

Lemma form_elems elementsByContext (e : Elem.t) :
  contextOf e ∈ formContexts ->
  e ∈ map_get_list (contextOf e) elementsByContext ->
  e ∈ flat_map (fun ctx => map_get_list ctx elementsByContext) formContexts.
Proof.
  intros Hc He. apply list_elem_of_In, in_flat_map.
  exists (contextOf e). split; apply list_elem_of_In; assumption.
Qed.

Lemma element_rendered elements pageText (e : Elem.t) :
  e ∈ elements ->
  exists indent,
    substr (elemToHtml e indent)
           (generateSemanticBody (groupElementsByContext elements) pageText).
Proof.
  intros H. apply groupElementsByContext_spec in H.
  set (G := groupElementsByContext elements) in *.
  destruct (map_get_list_has _ _ _ H) as [Hhas _].
  destruct (elem_of_strs (contextOf e)
              ([u "nav"; u "nav > menu"; u "header"] ++ formContexts)) eqn:E.
  - apply elem_of_strs_spec in E.
    apply elem_of_cons in E as [E|E]; [|apply elem_of_cons in E as [E|E];
                                         [|apply elem_of_cons in E as [E|E]]].
    + exists (u "      "). rewrite E in *.
      assert (Hnav : e ∈ map_get_list (u "nav") G ++ map_get_list (u "nav > menu") G)
        by (apply elem_of_app; left; exact H).
      eapply substr_trans; [apply nav_rendered, Hnav|apply body_parts; left].
      rewrite Hhas, orb_true_l. cbv zeta.
      rewrite (length_pos_elem _ _ Hnav). left.
    + exists (u "      "). rewrite E in *.
      assert (Hnav : e ∈ map_get_list (u "nav") G ++ map_get_list (u "nav > menu") G)
        by (apply elem_of_app; right; exact H).
      eapply substr_trans; [apply nav_rendered, Hnav|apply body_parts; left].
      rewrite Hhas, orb_true_r. cbv zeta.
      rewrite (length_pos_elem _ _ Hnav). left.
    + exists (u "    "). rewrite E in *.
      eapply substr_trans; [apply header_rendered, H|apply body_parts; right; left].
      rewrite Hhas. left.
    + exists (u "      ").
      pose proof (form_elems G e E H) as Hform.
      eapply substr_trans; [apply form_rendered, Hform|apply body_parts; right; right].
      apply elem_of_app. left. rewrite (length_pos_elem _ _ Hform). left.
  - exists (u "        ").
    pose proof (general_elems G e E H) as Hgen.
    eapply substr_trans; [apply content_rendered, Hgen|apply body_parts; right; right].
    apply elem_of_app. right.
    rewrite (length_pos_elem _ _ Hgen), orb_true_r. left.
Qed.


Lemma elemToHtml_shape (e : Elem.t) indent :
  exists a b c,
    elemToHtml e indent
    = indent ++ a ++ uq " sel=`" ++ Elem.sel e ++ dq ++ b
      ++ escapeHtml (Elem.text e) ++ c.
Proof.
  unfold elemToHtml. destruct (Elem.type e).
  - exists (u "<button"), (u ">"), (u "</button>"). reflexivity.
  - exists (u "<input type=" ++ dq ++ u "text" ++ dq), (u " placeholder=" ++ dq), (dq ++ u ">").
    rewrite <- !app_assoc. reflexivity.
  - exists (u "<a href=" ++ dq ++ u "#" ++ dq), (u ">"), (u "</a>").
    rewrite <- !app_assoc. reflexivity.
  - exists (u "<select"), (u "><option>"), (u "</option></select>"). reflexivity.
Qed.

Lemma segments_char c s :
  forall i, segments false (Lit [c]) i 0 s
            = map (fun x => if (c =? x)%N then inr [x] else inl x) s.
Proof.
  induction s as [|x s IH]; intros i; [reflexivity|].
  cbn [segments map]. unfold match_at. cbn [run lit]. unfold chr_match.
  destruct (c =? x)%N.
  - replace (S i - i) with 1 by lia. cbn [take]. rewrite IH. reflexivity.
  - rewrite IH. reflexivity.
Qed.

Lemma replace_all_char c p by_ s :
  p = [c] -> replace_all false (Lit p) by_ s = subst_char c by_ s.
Proof.
  intros ->. unfold replace_all, subst_char. rewrite segments_char.
  induction s as [|x s IH]; [reflexivity|].
  cbn [map flat_map]. rewrite IH. destruct (c =? x)%N; reflexivity.
Qed.

Lemma subst_char_app c by_ a b :
  subst_char c by_ (a ++ b) = subst_char c by_ a ++ subst_char c by_ b.
Proof. apply flat_map_app. Qed.

Lemma escapeHtml_chars text : escapeHtml text = flat_map escape_char text.
Proof.
  unfold escapeHtml.
  rewrite (replace_all_char 38%N _ _ _ eq_refl), (replace_all_char 60%N _ _ _ eq_refl),
    (replace_all_char 62%N _ _ _ eq_refl), (replace_all_char 34%N _ _ _ eq_refl),
    (replace_all_char 39%N _ _ _ eq_refl).
  induction text as [|x s IH]; [reflexivity|].
  change (x :: s) with ([x] ++ s).
  rewrite !subst_char_app, IH, flat_map_app. f_equal.
  unfold escape_char, subst_char at 5. cbn [flat_map]. rewrite app_nil_r.
  destruct (38 =? x)%N eqn:E38; [reflexivity|].
  unfold subst_char at 4. cbn [flat_map]. rewrite app_nil_r.
  destruct (60 =? x)%N eqn:E60; [reflexivity|].
  unfold subst_char at 3. cbn [flat_map]. rewrite app_nil_r.
  destruct (62 =? x)%N eqn:E62; [reflexivity|].
  unfold subst_char at 2. cbn [flat_map]. rewrite app_nil_r.
  destruct (34 =? x)%N eqn:E34; [reflexivity|].
  unfold subst_char. cbn [flat_map]. rewrite app_nil_r.
  destruct (39 =? x)%N eqn:E39; reflexivity.
Qed.





(** * Further properties *)

(** ** The caches over time *)

Lemma map_set_length {V} k (v : V) m : length (map_set k v m) <= S (length m).
Proof.
  induction m as [|[k' v'] m IH]; simpl; [lia|].
  destruct (eqb k' k); simpl; lia.
Qed.

Lemma generateMeaningfulSelector_domCache doc e st :
  domCache (snd (generateMeaningfulSelector doc e st)) = domCache st.
Proof.
  unfold generateMeaningfulSelector.
  destruct (selectorCache st !! getElementCacheKey doc e); reflexivity.
Qed.

Lemma mapM_elemToElem_domCache doc l :
  forall st, domCache (snd (mapM (elemToElem doc) l st)) = domCache st.
Proof.
  induction l as [|a l IH]; intros st; [reflexivity|].
  simpl. unfold bind at 1. unfold elemToElem at 1. unfold bind at 1.
  pose proof (generateMeaningfulSelector_domCache doc a st) as Ha.
  destruct (generateMeaningfulSelector doc a st) as [s st1]. simpl in *.
  unfold bind. specialize (IH st1).
  destruct (mapM (elemToElem doc) l st1) as [bs st2]. simpl in *. congruence.
Qed.

(** What [getElemsDom] does to the document cache: nothing, or one new
    entry under the fingerprint of the markup when that had none and
    the cache held fewer than 100. *)
Lemma getElemsDom_domCache parse html st :
  domCache (snd (getElemsDom parse html st)) = domCache st
  \/ (exists d,
        assoc (generateHtmlHash html) (domCache st) = None
        /\ length (domCache st) < MAX_CACHE_SIZE
        /\ domCache (snd (getElemsDom parse html st))
           = map_set (generateHtmlHash html) d (domCache st)).
Proof.
  unfold getElemsDom.
  destruct (assoc (generateHtmlHash html) (domCache st)) as [d|] eqn:Hc.
  - left. pose proof (mapM_elemToElem_domCache d (findMeaningfulElements d) st) as H.
    destruct (mapM _ _ _) as [es st2]. exact H.
  - destruct (parse html) as [d|]; [|left; reflexivity].
    destruct (Nat.ltb_spec (length (domCache st)) MAX_CACHE_SIZE) as [Hlt|Hge].
    + right. exists d. split; [reflexivity|]. split; [exact Hlt|].
      match goal with |- context [mapM _ _ ?st'] =>
        pose proof (mapM_elemToElem_domCache d (findMeaningfulElements d) st') as H
      end.
      destruct (mapM _ _ _) as [es st2]. exact H.
    + left. pose proof (mapM_elemToElem_domCache d (findMeaningfulElements d) st) as H.
      destruct (mapM _ _ _) as [es st2]. exact H.
Qed.

Lemma cleanupCaches_domCache now st :
  length (domCache st) <= MAX_CACHE_SIZE ->
  domCache (snd (cleanupCaches now st)) = domCache st.
Proof.
  intros H. unfold cleanupCaches.
  destruct (CACHE_TTL <? now - lastCacheCleanup st)%Z; [|reflexivity].
  simpl. destruct (Nat.ltb_spec MAX_CACHE_SIZE (length (domCache st))); [lia|reflexivity].
Qed.

Lemma tiny_state parse now html opts st :
  snd (tiny parse now html opts st)
  = if (5000000 <? len html)%Z then snd (cleanupCaches now st)
    else snd (getElemsDom parse html (snd (cleanupCaches now st))).
Proof.
  unfold tiny, bind.
  destruct (cleanupCaches now st) as [[] st1]; simpl.
  destruct (5000000 <? len html)%Z; [reflexivity|].
  unfold getElems, bind.
  destruct (getElemsDom parse html st1) as [dom st2]. simpl.
  destruct (0 <? length dom); reflexivity.
Qed.

Lemma tiny_domCache_bound parse now html opts st :
  length (domCache st) <= MAX_CACHE_SIZE ->
  length (domCache (snd (tiny parse now html opts st))) <= MAX_CACHE_SIZE.
Proof.
  intros H. rewrite tiny_state.
  pose proof (cleanupCaches_domCache now st H) as Hc.
  destruct (5000000 <? len html)%Z; [rewrite Hc; exact H|].
  destruct (getElemsDom_domCache parse html (snd (cleanupCaches now st)))
    as [-> | (d & _ & Hlt & ->)]; rewrite Hc in *; [exact H|].
  pose proof (map_set_length (generateHtmlHash html) d (domCache st)). lia.
Qed.

Lemma run_calls_domCache_bound parse calls :
  forall st,
    length (domCache st) <= MAX_CACHE_SIZE ->
    length (domCache (run_calls parse calls st)) <= MAX_CACHE_SIZE.
Proof.
  induction calls as [|c calls IH]; intros st H; simpl; [exact H|].
  apply IH, tiny_domCache_bound, H.
Qed.

(** X1. Starting from empty caches, after any run of calls of [tiny]
    the document cache holds at most 100 documents, so the branch of
    [cleanupCaches] that evicts the older half (taken only above 100)
    never runs: a sweep leaves the document cache as it is. *)
Theorem document_cache_bounded parse calls t0 now :
  let st := run_calls parse calls (fresh t0) in
  length (domCache st) <= 100
  /\ domCache (snd (cleanupCaches now st)) = domCache st.
Proof.
  intros st.
  assert (H : length (domCache st) <= MAX_CACHE_SIZE).
  { apply run_calls_domCache_bound. simpl. unfold MAX_CACHE_SIZE. lia. }
  split; [exact H|]. apply cleanupCaches_domCache, H.
Qed.

Lemma tiny_keeps_document parse now html opts st k d :
  length (domCache st) <= MAX_CACHE_SIZE ->
  assoc k (domCache st) = Some d ->
  assoc k (domCache (snd (tiny parse now html opts st))) = Some d.
Proof.
  intros H Hk. rewrite tiny_state.
  pose proof (cleanupCaches_domCache now st H) as Hc.
  destruct (5000000 <? len html)%Z; [rewrite Hc; exact Hk|].
  destruct (getElemsDom_domCache parse html (snd (cleanupCaches now st)))
    as [-> | (d' & Hnone & _ & ->)]; rewrite Hc in *; [exact Hk|].
  rewrite assoc_map_set_ne; [exact Hk|].
  intros Heq. subst k. congruence.
Qed.

(** X2. A document stored in the document cache stays there: after any
    further run of calls, at whatever times, the cache still maps its
    fingerprint to the same document, and the DOM pass on any markup
    with that fingerprint reads this document without calling the
    parser. The five-minute sweep ages no document out. *)
Theorem cached_document_stays parse calls :
  forall st k d,
    length (domCache st) <= 100 ->
    assoc k (domCache st) = Some d ->
    let st' := run_calls parse calls st in
    assoc k (domCache st') = Some d
    /\ (forall html other_parse,
          generateHtmlHash html = k ->
          getElemsDom parse html st' = getElemsDom other_parse html st').
Proof.
  intros st k d H Hk st'.
  assert (Hk' : assoc k (domCache st') = Some d).
  { subst st'. revert st H Hk.
    induction calls as [|c calls IH]; intros st H Hk; simpl; [exact Hk|].
    apply IH; [apply tiny_domCache_bound, H|apply tiny_keeps_document; assumption]. }
  split; [exact Hk'|].
  intros html other_parse <-. unfold getElemsDom. rewrite Hk'. reflexivity.
Qed.

Lemma cached_document_stays_witness :
  let st' :=
    run_calls Markup.parse
      [ {| call_now := 86400000; call_html := two_links_html; call_opts := no_opts |};
        {| call_now := 172800000; call_html := hidden_html; call_opts := no_opts |} ]
      (snd (tiny Markup.parse 0 login_html no_opts (fresh 0))) in
  assoc (u "3et22") (domCache st') = Some login_doc
  /\ (forall html other_parse,
        generateHtmlHash html = u "3et22" ->
        getElemsDom Markup.parse html st' = getElemsDom other_parse html st').
Proof.
  apply (cached_document_stays Markup.parse
           [ {| call_now := 86400000; call_html := two_links_html; call_opts := no_opts |};
             {| call_now := 172800000; call_html := hidden_html; call_opts := no_opts |} ]
           (snd (tiny Markup.parse 0 login_html no_opts (fresh 0)))
           (u "3et22") login_doc).
  - vm_compute. lia.
  - vm_compute. reflexivity.
Defined.

(** X3. After [cleanupCaches] at time [now], the last sweep is at most
    the sweep interval before [now]; running it again at the same time
    changes nothing. *)
Theorem cleanupCaches_settled now st :
  let st1 := snd (cleanupCaches now st) in
  (now - lastCacheCleanup st1 <= CACHE_TTL)%Z
  /\ cleanupCaches now st1 = (tt, st1).
Proof.
  intros st1.
  assert (H : (now - lastCacheCleanup st1 <= CACHE_TTL)%Z).
  { subst st1. unfold cleanupCaches.
    destruct (Z.ltb_spec CACHE_TTL (now - lastCacheCleanup st)); simpl;
      [unfold CACHE_TTL|]; lia. }
  split; [exact H|]. unfold cleanupCaches at 1.
  destruct (Z.ltb_spec CACHE_TTL (now - lastCacheCleanup st1)); [lia|reflexivity].
Qed.

Lemma generateMeaningfulSelector_keeps doc e st k v :
  selectorCache st !! k = Some v ->
  selectorCache (snd (generateMeaningfulSelector doc e st)) !! k = Some v.
Proof.
  intros H. unfold generateMeaningfulSelector.
  destruct (selectorCache st !! getElementCacheKey doc e) eqn:E; simpl; [exact H|].
  rewrite lookup_insert_ne; [exact H|]. intros Heq. subst k. congruence.
Qed.

Lemma mapM_elemToElem_keeps doc l k v :
  forall st,
    selectorCache st !! k = Some v ->
    selectorCache (snd (mapM (elemToElem doc) l st)) !! k = Some v.
Proof.
  induction l as [|a l IH]; intros st H; [exact H|].
  simpl. unfold bind at 1. unfold elemToElem at 1. unfold bind at 1.
  pose proof (generateMeaningfulSelector_keeps doc a st k v H) as Ha.
  destruct (generateMeaningfulSelector doc a st) as [s st1]. simpl in *.
  unfold bind. specialize (IH st1 Ha).
  destruct (mapM (elemToElem doc) l st1) as [bs st2]. simpl in *. exact IH.
Qed.

Lemma getElemsDom_keeps parse html st k v :
  selectorCache st !! k = Some v ->
  selectorCache (snd (getElemsDom parse html st)) !! k = Some v.
Proof.
  intros H. unfold getElemsDom.
  match goal with |- context [match ?f with Some _ => _ | None => _ end] =>
    assert (Hf : forall d st1, f = Some (d, st1) -> selectorCache st1 = selectorCache st)
  end.
  { intros d st1.
    destruct (assoc (generateHtmlHash html) (domCache st)); [intros [= _ <-]; reflexivity|].
    destruct (parse html); [|discriminate].
    destruct (length (domCache st) <? MAX_CACHE_SIZE); intros [= _ <-]; reflexivity. }
  match goal with |- context [match ?f with Some _ => _ | None => _ end] =>
    destruct f as [[d st1]|]
  end; [|exact H].
  specialize (Hf d st1 eq_refl).
  pose proof (mapM_elemToElem_keeps d (findMeaningfulElements d) k v st1) as Hm.
  rewrite Hf in Hm. specialize (Hm H).
  destruct (mapM _ _ _) as [es st2]. exact Hm.
Qed.

(** X4. Between two sweeps the selector cache only grows: a call of
    [tiny] for which no sweep is due keeps every selector the cache
    holds, under its key and with its value, whatever document it
    processes. *)
Theorem selector_cache_keeps parse now html opts st k v :
  (now - lastCacheCleanup st <= CACHE_TTL)%Z ->
  selectorCache st !! k = Some v ->
  selectorCache (snd (tiny parse now html opts st)) !! k = Some v.
Proof.
  intros Hnow H. rewrite tiny_state.
  assert (Hc : snd (cleanupCaches now st) = st).
  { unfold cleanupCaches.
    destruct (Z.ltb_spec CACHE_TTL (now - lastCacheCleanup st)); [lia|reflexivity]. }
  rewrite Hc. destruct (5000000 <? len html)%Z; [exact H|].
  apply getElemsDom_keeps, H.
Qed.

Lemma selector_cache_keeps_witness :
  selectorCache
    (snd (tiny Markup.parse 1000 two_links_html no_opts
            (snd (tiny Markup.parse 0 login_html no_opts (fresh 0)))))
  !! u "button---" = Some (u "form button").
Proof.
  apply selector_cache_keeps.
  - vm_compute. discriminate.
  - vm_compute. reflexivity.
Defined.

(** ** Unwrapping and visibility *)

Lemma unwrap_fold doc l :
  forall acc,
    NoDup acc ->
    NoDup (foldl (unwrap_step doc) acc l)
    /\ (forall x, x ∈ foldl (unwrap_step doc) acc l
                  <-> x ∈ acc \/ exists e, e ∈ l /\ x = unwrapElement doc 5 e).
Proof.
  induction l as [|a l IH]; intros acc Hnd; cbn [foldl].
  - split; [exact Hnd|]. intros x. split; [auto|].
    intros [H|(e & He & _)]; [exact H|inversion He].
  - destruct (IH (unwrap_step doc acc a) (push_new_NoDup _ _ Hnd)) as [Hnd' Hin].
    split; [exact Hnd'|]. intros x. rewrite Hin. unfold unwrap_step, push_new.
    case_bool_decide as Ha; split.
    + intros [H|(e & He & ->)]; [auto|]. right. exists e. split; [right; exact He|reflexivity].
    + intros [H|(e & He & ->)]; [auto|].
      apply elem_of_cons in He as [->|He]; [auto|]. right. eauto.
    + intros [H|(e & He & ->)].
      * apply elem_of_app in H as [H|H]; [auto|].
        apply list_elem_of_singleton in H. subst x. right. exists a. split; [left|reflexivity].
      * right. exists e. split; [right; exact He|reflexivity].
    + intros [H|(e & He & ->)].
      * left. apply elem_of_app. auto.
      * apply elem_of_cons in He as [->|He]; [|right; eauto].
        left. apply elem_of_app. right. left.
Qed.

(** X5. [unwrapUselessWrappers] returns each element once, and returns
    exactly the elements that the five-level descent reaches from the
    given ones: none is lost and none is invented. *)
Theorem unwrap_dedups doc elements :
  NoDup (unwrapUselessWrappers doc elements)
  /\ (forall x, x ∈ unwrapUselessWrappers doc elements
                <-> exists e, e ∈ elements /\ x = unwrapElement doc 5 e).
Proof.
  unfold unwrapUselessWrappers.
  destruct (unwrap_fold doc elements [] (NoDup_nil_2)) as [Hnd Hin].
  split; [exact Hnd|]. intros x. rewrite Hin. split; [|auto].
  intros [H|H]; [inversion H|exact H].
Qed.

Lemma wrapper_child doc e :
  isUselessWrapper doc e = true ->
  exists i, extractMeaningfulChild doc e = i :: e.
Proof.
  unfold isUselessWrapper, extractMeaningfulChild, children. intros W.
  destruct (negb (elem_of_strs (tagName doc e) [u "div"; u "span"])); [discriminate|].
  destruct (truthy (trim (getOwnText doc e))); [discriminate|].
  destruct (element_indexes 0 (childNodes doc e)) as [|i [|j l]];
    cbn [map length Nat.eqb negb] in *; try discriminate.
  exists i. reflexivity.
Qed.

Lemma isUselessWrapper_tag doc e :
  isUselessWrapper doc e = true ->
  tagName doc e = u "div" \/ tagName doc e = u "span".
Proof.
  unfold isUselessWrapper.
  destruct (elem_of_strs (tagName doc e) [u "div"; u "span"]) eqn:E; [|discriminate].
  intros _. apply elem_of_strs_spec in E.
  apply elem_of_cons in E as [E|E]; [auto|].
  apply elem_of_cons in E as [E|E]; [auto|inversion E].
Qed.

(** X6. The descent of [unwrapUselessWrappers] ends on the element
    itself or on a descendant at most five levels below it, and it ends
    before the fifth level only on an element that is no useless
    wrapper. An element whose tag is neither [div] nor [span] is left
    as it is. *)
Theorem unwrapElement_descends doc budget :
  forall e,
    (exists down,
        unwrapElement doc budget e = down ++ e
        /\ length down <= budget
        /\ (length down < budget ->
            isUselessWrapper doc (unwrapElement doc budget e) = false))
    /\ (tagName doc e <> u "div" -> tagName doc e <> u "span" ->
        unwrapElement doc budget e = e).
Proof.
  induction budget as [|b IH]; intros e.
  - split; [|reflexivity]. exists []. simpl. split; [reflexivity|]. split; lia.
  - split.
    + simpl. destruct (isUselessWrapper doc e) eqn:W.
      * destruct (IH (extractMeaningfulChild doc e)) as [(down & Hd & Hl & Hw) _].
        destruct (wrapper_child doc e W) as [i Hc].
        exists (down ++ [i]). rewrite Hd, Hc, <- app_assoc. simpl.
        split; [reflexivity|]. rewrite length_app. simpl.
        split; [lia|]. intros Hlt. rewrite <- Hc, <- Hd. apply Hw. lia.
      * exists []. simpl. split; [reflexivity|]. split; [lia|]. intros _. exact W.
    + intros Hdiv Hspan. simpl.
      destruct (isUselessWrapper doc e) eqn:W; [|reflexivity].
      apply isUselessWrapper_tag in W. tauto.
Qed.






(** ** Labels are never empty *)

Lemma trimStart_visible s : existsb visible_char (trimStart s) = existsb visible_char s.
Proof.
  induction s as [|c s IH]; [reflexivity|]. cbn [trimStart].
  destruct (is_ws c) eqn:E; [|reflexivity].
  rewrite IH. cbn [existsb]. unfold visible_char at 2. rewrite E. reflexivity.
Qed.

Lemma trimStart_truthy s : truthy (trimStart s) = existsb visible_char s.
Proof.
  induction s as [|c s IH]; [reflexivity|]. cbn [trimStart existsb].
  unfold visible_char at 1. destruct (is_ws c); [exact IH|reflexivity].
Qed.

Lemma existsb_reverse {A} (f : A -> bool) l : existsb f (rev l) = existsb f l.
Proof.
  induction l as [|x l IH]; [reflexivity|].
  simpl. rewrite existsb_app, IH. simpl. rewrite orb_false_r. apply orb_comm.
Qed.

Lemma truthy_rev (s : str) : truthy (rev s) = truthy s.
Proof.
  destruct s as [|c s]; [reflexivity|]. simpl.
  destruct (rev s ++ [c]) eqn:E; [|reflexivity].
  apply app_eq_nil in E as [_ E]. discriminate.
Qed.

(** [s.trim()] is truthy exactly when [s] has a character that is no
    white space. *)
Lemma trim_truthy s : truthy (trim s) = existsb visible_char s.
Proof.
  unfold trim, trimEnd.
  rewrite truthy_rev, trimStart_truthy, existsb_reverse. apply trimStart_visible.
Qed.

Lemma resolve_app n p q :
  resolve n (p ++ q) = match resolve n p with Some m => resolve m q | None => None end.
Proof.
  revert n. induction p as [|i p IH]; intros n; [reflexivity|].
  simpl. destruct n as [d|d|t a cs]; try reflexivity.
  destruct (cs !! i); [apply IH|reflexivity].
Qed.

Lemma no_elements_text cs k :
  element_indexes k cs = [] -> map node_text cs = map own_text cs.
Proof.
  revert k. induction cs as [|c cs IH]; intros k; [reflexivity|].
  cbn [element_indexes map]. destruct c as [d|d|t a ch]; simpl; intros H;
    try discriminate; f_equal; eapply IH; exact H.
Qed.

Lemma one_element_text cs :
  forall k i,
    element_indexes k cs = [i] ->
    exists j t a ch,
      i = k + j /\ cs !! j = Some (Element t a ch)
      /\ existsb visible_char (concat (map node_text cs))
         = existsb visible_char (concat (map own_text cs))
           || existsb visible_char (concat (map node_text ch)).
Proof.
  induction cs as [|c cs IH]; intros k i H; [discriminate|].
  cbn [element_indexes] in H. destruct c as [d|d|t a ch]; simpl in H.
  - destruct (IH _ _ H) as (j & t & a & ch & -> & Hj & Hx).
    exists (S j), t, a, ch. split; [lia|]. split; [exact Hj|].
    cbn [map concat node_text own_text]. rewrite !existsb_app, Hx, orb_assoc. reflexivity.
  - destruct (IH _ _ H) as (j & t & a & ch & -> & Hj & Hx).
    exists (S j), t, a, ch. split; [lia|]. split; [exact Hj|].
    cbn [map concat node_text own_text]. exact Hx.
  - injection H as <- H. exists 0, t, a, ch. split; [lia|]. split; [reflexivity|].
    cbn [map concat node_text own_text app]. fold node_text.
    rewrite existsb_app, (no_elements_text _ _ H). apply orb_comm.
Qed.

Lemma childNodes_child doc e i t a ch :
  childNodes doc e !! i = Some (Element t a ch) ->
  childNodes doc (i :: e) = ch.
Proof.
  unfold childNodes, node_at. cbn [rev]. rewrite resolve_app.
  destruct (resolve doc (rev e)) as [[d|d|t0 a0 cs]|]; simpl;
    try (intros H; rewrite lookup_nil in H; discriminate).
  intros ->. reflexivity.
Qed.

(** A useless wrapper with visible text has its visible text in its
    one child element. *)
Lemma wrapper_text doc e :
  isUselessWrapper doc e = true ->
  existsb visible_char (textContent doc e) = true ->
  existsb visible_char (textContent doc (extractMeaningfulChild doc e)) = true.
Proof.
  unfold isUselessWrapper, extractMeaningfulChild, children, textContent. intros W Ht.
  destruct (negb (elem_of_strs (tagName doc e) [u "div"; u "span"])); [discriminate|].
  rewrite trim_truthy in W.
  destruct (existsb visible_char (getOwnText doc e)) eqn:Hown; [discriminate|].
  destruct (element_indexes 0 (childNodes doc e)) as [|i [|j l]] eqn:Hix;
    cbn [map length Nat.eqb negb] in *; try discriminate.
  destruct (one_element_text _ _ _ Hix) as (j & t & a & ch & -> & Hj & Hx).
  rewrite Hx in Ht. unfold getOwnText in Hown. fold own_text in Hown.
  change (fun n : node => match n with Text d => d | _ => [] end) with own_text in Hown.
  rewrite Hown in Ht. simpl in Ht.
  change (0 + j) with j.
  rewrite (childNodes_child doc e j t a ch Hj). exact Ht.
Qed.

Lemma isMeaningfulElement_labelled doc e :
  isMeaningfulElement doc e = true -> labelled doc e.
Proof.
  unfold isMeaningfulElement, labelled. rewrite trim_truthy.
  destruct (existsb visible_char (textContent doc e)); [auto|].
  destruct (eqb (tagName doc e) (u "input")) eqn:E; [|discriminate].
  intros _. left. apply eqb_eq, E.
Qed.

Lemma unwrapElement_labelled doc budget :
  forall e, labelled doc e -> labelled doc (unwrapElement doc budget e).
Proof.
  induction budget as [|b IH]; intros e H; [exact H|].
  simpl. destruct (isUselessWrapper doc e) eqn:W; [|exact H].
  apply IH. right. apply wrapper_text; [exact W|].
  destruct H as [H|H]; [|exact H].
  apply isUselessWrapper_tag in W. rewrite H in W.
  destruct W as [W|W]; discriminate W.
Qed.

Lemma findMeaningfulElements_labelled doc :
  Forall (labelled doc) (findMeaningfulElements doc).
Proof.
  apply Forall_forall. intros x Hx. unfold findMeaningfulElements in Hx.
  apply unwrap_dedups in Hx as (e & He & ->).
  apply unwrapElement_labelled, isMeaningfulElement_labelled.
  apply list_elem_of_In, in_flat_map in He as (sel & _ & He).
  apply list_elem_of_In, list_elem_of_filter in He as [He _].
  apply andb_prop in He as [He _]. exact He.
Qed.

Lemma slice0_30_nonempty (s : str) : s <> [] -> slice0 30 s <> [].
Proof. destruct s; [contradiction|discriminate]. Qed.

Lemma first_truthy_nonempty l fallback : fallback <> [] -> first_truthy l fallback <> [].
Proof.
  intros H. unfold first_truthy.
  destruct (List.filter truthy (omap (fun x => x) l)) as [|s r] eqn:E; [exact H|].
  assert (Hin : In s (List.filter truthy (omap (fun x => x) l))) by (rewrite E; left; reflexivity).
  apply filter_In in Hin as [_ Hs]. destruct s; [discriminate|discriminate].
Qed.

Lemma or_else_nonempty a b : b <> [] -> or_else a b <> [].
Proof. destruct a; [auto|discriminate]. Qed.

Lemma toElem_labelled doc e s :
  labelled doc e -> Elem.text (toElem doc e s) <> [].
Proof.
  intros H. unfold toElem.
  assert (Htext : eqb (tagName doc e) (u "input") = false ->
                  slice0 30 (trim (textContent doc e)) <> []).
  { intros Hi. apply slice0_30_nonempty.
    destruct H as [H|H]; [rewrite H in Hi; discriminate|].
    rewrite <- trim_truthy in H. destruct (trim (textContent doc e)); discriminate. }
  destruct (eqb (tagName doc e) (u "button")) eqn:Eb.
  { apply Htext. apply eqb_eq in Eb. rewrite Eb. reflexivity. }
  destruct (eqb (tagName doc e) (u "a")) eqn:Ea.
  { apply Htext. apply eqb_eq in Ea. rewrite Ea. reflexivity. }
  destruct (eqb (tagName doc e) (u "input")) eqn:Ei.
  { apply first_truthy_nonempty. discriminate. }
  destruct (eqb (tagName doc e) (u "select")).
  { apply or_else_nonempty. discriminate. }
  destruct (eqb (tagName doc e) (u "textarea")).
  { apply first_truthy_nonempty. discriminate. }
  apply Htext. reflexivity.
Qed.

Lemma mapM_elemToElem_labelled doc l :
  Forall (labelled doc) l ->
  forall st, Forall (fun e => Elem.text e <> []) (fst (mapM (elemToElem doc) l st)).
Proof.
  induction l as [|a l IH]; intros Hl st; [constructor|].
  apply Forall_cons in Hl as [Ha Hl]. specialize (IH Hl).
  simpl. unfold bind at 1. unfold elemToElem at 1. unfold bind at 1.
  destruct (generateMeaningfulSelector doc a st) as [s st1]. simpl.
  unfold bind. specialize (IH st1).
  destruct (mapM (elemToElem doc) l st1) as [bs st2]. simpl in *.
  constructor; [apply toElem_labelled, Ha|exact IH].
Qed.

Lemma getElemsRegex_labelled html :
  Forall (fun e => Elem.text e <> []) (getElemsRegex html).
Proof.
  unfold getElemsRegex. rewrite !Forall_app. repeat split.
  - apply Forall_flat_map, Forall_forall. intros m _.
    destruct (trim _) eqn:E; [constructor|].
    constructor; [discriminate|constructor].
  - apply Forall_flat_map, Forall_forall. intros m _.
    destruct (trim _) eqn:E; [constructor|].
    constructor; [discriminate|constructor].
  - apply Forall_map, Forall_forall. intros m _. simpl.
    destruct (exec false placeholder_re m) as [[? [p|]]|]; try discriminate.
    apply or_else_nonempty. discriminate.
Qed.

(** X8. No element of a snapshot has an empty label, on either path:
    a text label comes from an element whose trimmed text is not empty,
    also after unwrapping, and a field without placeholder or name is
    labelled [Input], a [select] without text [Select], a [textarea]
    without placeholder [Text area]. *)
Theorem labels_never_empty parse now html opts st :
  match fst (tiny parse now html opts st) with
  | inr snap => Forall (fun e => Elem.text e <> []) (CompSnapshot.elems snap)
  | inl _ => True
  end.
Proof.
  rewrite tiny_unfold. destruct (5000000 <? len html)%Z; [exact I|].
  cbn [CompSnapshot.elems]. apply Forall_slice0. rewrite getElems_unfold.
  assert (Hdom : Forall (fun e => Elem.text e <> [])
                   (fst (getElemsDom parse html (snd (cleanupCaches now st))))).
  { unfold getElemsDom.
    match goal with |- context [match ?f with Some _ => _ | None => _ end] =>
      destruct f as [[d st1]|] end; [|constructor].
    pose proof (mapM_elemToElem_labelled d (findMeaningfulElements d)
                  (findMeaningfulElements_labelled d) st1) as H.
    destruct (mapM _ _ _) as [elems st2]; simpl in *.
    apply Forall_slice0, H. }
  destruct (fst (getElemsDom parse html _)); [apply getElemsRegex_labelled|exact Hdom].
Qed.

(** ** Grouping by context *)

Lemma groupElementsByContext_foldl elements :
  groupElementsByContext elements = foldl group_step [] elements.
Proof. reflexivity. Qed.

Lemma map_has_false {V} k (m : list (str * V)) : map_has k m = false -> k ∉ map fst m.
Proof.
  unfold map_has. induction m as [|[k' v'] m IH]; simpl; intros H Hin.
  - inversion Hin.
  - destruct (eqb k k') eqn:E; [discriminate|].
    apply elem_of_cons in Hin as [->|Hin]; [rewrite eqb_refl in E; discriminate|].
    exact (IH H Hin).
Qed.

Lemma map_set_absent {V} k (v : V) m : map_has k m = false -> map_set k v m = m ++ [(k, v)].
Proof.
  unfold map_has. induction m as [|[k' v'] m IH]; simpl; intros H; [reflexivity|].
  destruct (eqb k k') eqn:E; [discriminate|].
  destruct (eqb k' k) eqn:E'.
  - apply eqb_eq in E'. subst. rewrite eqb_refl in E. discriminate.
  - rewrite IH by exact H. reflexivity.
Qed.

Lemma map_set_keys {V} k (v : V) m :
  map fst (map_set k v m) = if map_has k m then map fst m else map fst m ++ [k].
Proof.
  unfold map_has. induction m as [|[k' v'] m IH]; simpl; [reflexivity|].
  destruct (eqb k' k) eqn:E'.
  - apply eqb_eq in E'. subst. rewrite eqb_refl. reflexivity.
  - destruct (eqb k k') eqn:E.
    + apply eqb_eq in E. subst. rewrite eqb_refl in E'. discriminate.
    + simpl. rewrite IH. destruct (assoc k m); reflexivity.
Qed.

Lemma map_has_set {V} k (v : V) m : map_has k (map_set k v m) = true.
Proof. unfold map_has. rewrite assoc_map_set_eq. reflexivity. Qed.

Lemma group_step_keys groups x :
  NoDup (map fst groups) -> NoDup (map fst (group_step groups x)).
Proof.
  intros H. unfold group_step. rewrite map_set_keys.
  destruct (map_has (contextOf x) groups) eqn:E.
  - rewrite E. exact H.
  - rewrite map_has_set, map_set_keys, E.
    apply NoDup_app. split; [exact H|]. split; [|apply NoDup_singleton].
    intros k Hk Hk'. apply list_elem_of_singleton in Hk'. subst k.
    exact (map_has_false _ _ E Hk).
Qed.

Lemma group_step_get groups x k :
  map_get_list k (group_step groups x)
  = map_get_list k groups ++ (if eqb (contextOf x) k then [x] else []).
Proof.
  unfold group_step, map_get_list.
  destruct (eqb (contextOf x) k) eqn:E.
  - apply eqb_eq in E. subst k. rewrite assoc_map_set_eq. simpl.
    unfold map_has. destruct (assoc (contextOf x) groups) eqn:Ea; [rewrite Ea; reflexivity|].
    rewrite assoc_map_set_eq. reflexivity.
  - apply eqb_neq in E. rewrite assoc_map_set_ne by exact E.
    destruct (map_has (contextOf x) groups); [|rewrite assoc_map_set_ne by exact E];
      rewrite app_nil_r; reflexivity.
Qed.

Lemma group_step_has groups x k :
  map_has k (group_step groups x) = map_has k groups || eqb (contextOf x) k.
Proof.
  unfold group_step. destruct (eqb (contextOf x) k) eqn:E.
  - apply eqb_eq in E. subst k. rewrite map_has_set, orb_true_r. reflexivity.
  - apply eqb_neq in E. unfold map_has at 1. rewrite assoc_map_set_ne by exact E.
    rewrite orb_false_r.
    destruct (map_has (contextOf x) groups); [reflexivity|].
    rewrite assoc_map_set_ne by exact E. reflexivity.
Qed.

Lemma groupElementsByContext_groups elements :
  NoDup (map fst (groupElementsByContext elements))
  /\ (forall k, map_get_list k (groupElementsByContext elements) = with_context k elements)
  /\ (forall k, map_has k (groupElementsByContext elements)
                = existsb (fun e => eqb (contextOf e) k) elements).
Proof.
  rewrite groupElementsByContext_foldl. unfold with_context.
  induction elements as [|x l (Hnd & Hget & Hhas)] using rev_ind.
  - split; [constructor|]. split; reflexivity.
  - rewrite foldl_snoc. split; [apply group_step_keys, Hnd|]. split; intros k.
    + rewrite group_step_get, Hget, List.filter_app. reflexivity.
    + rewrite group_step_has, Hhas, existsb_app. simpl. rewrite orb_false_r. reflexivity.
Qed.

(** X9. [groupElementsByContext] builds a map with one entry for each
    context that occurs (the absent or empty context counting as
    [main]): the group of a context is exactly the list of the elements
    with that context, in their order, and a context has an entry if
    and only if some element has it. *)
Theorem grouping_by_context elements :
  let groups := groupElementsByContext elements in
  NoDup (map fst groups)
  /\ (forall k, map_get_list k groups = with_context k elements)
  /\ (forall k, map_has k groups = existsb (fun e => eqb (contextOf e) k) elements).
Proof. exact (groupElementsByContext_groups elements). Qed.

Lemma map_set_last {V} k (v w : V) m :
  map_has k m = false -> map_set k v (m ++ [(k, w)]) = m ++ [(k, v)].
Proof.
  unfold map_has. induction m as [|[k' v'] m IH]; simpl; intros H.
  - rewrite eqb_refl. reflexivity.
  - destruct (eqb k k') eqn:E; [discriminate|].
    destruct (eqb k' k) eqn:E'.
    + apply eqb_eq in E'. subst. rewrite eqb_refl in E. discriminate.
    + rewrite IH by exact H. reflexivity.
Qed.

Lemma map_set_snoc_filter (P : str -> bool) k v (x : Elem.t) m :
  assoc k m = Some v ->
  flat_map snd (List.filter (fun en => P (fst en)) (map_set k (v ++ [x]) m))
  ≡ₚ flat_map snd (List.filter (fun en => P (fst en)) m) ++ (if P k then [x] else []).
Proof.
  induction m as [|[k' v'] m IH]; simpl; [discriminate|].
  destruct (eqb k k') eqn:E.
  - apply eqb_eq in E. subst k'. intros [= ->]. rewrite eqb_refl. simpl.
    destruct (P k); [|rewrite app_nil_r; reflexivity].
    simpl. rewrite <- !app_assoc. apply Permutation_app_head, Permutation_app_comm.
  - intros H. destruct (eqb k' k) eqn:E'.
    + apply eqb_eq in E'. subst. rewrite eqb_refl in E. discriminate.
    + simpl. destruct (P k'); simpl; [rewrite <- app_assoc; apply Permutation_app_head|];
        apply IH, H.
Qed.

Lemma group_step_filter (P : str -> bool) groups x :
  flat_map snd (List.filter (fun en => P (fst en)) (group_step groups x))
  ≡ₚ flat_map snd (List.filter (fun en => P (fst en)) groups)
     ++ (if P (contextOf x) then [x] else []).
Proof.
  unfold group_step. destruct (map_has (contextOf x) groups) eqn:E.
  - unfold map_has in E. unfold map_get_list.
    destruct (assoc (contextOf x) groups) as [v|] eqn:Ea; [|discriminate].
    simpl. apply map_set_snoc_filter, Ea.
  - rewrite (map_set_absent _ _ _ E). unfold map_get_list.
    rewrite <- (map_set_absent _ [] _ E), assoc_map_set_eq, (map_set_absent _ _ _ E).
    simpl. rewrite (map_set_last _ _ _ _ E), List.filter_app, flat_map_app. simpl.
    destruct (P (contextOf x)); reflexivity.
Qed.

Lemma generalElemsOf_groups elements :
  generalElemsOf (groupElementsByContext elements)
  ≡ₚ with_no_context ([u "nav"; u "nav > menu"; u "header"] ++ formContexts) elements.
Proof.
  rewrite groupElementsByContext_foldl. unfold generalElemsOf, with_no_context.
  induction elements as [|x l IH] using rev_ind; [reflexivity|].
  rewrite foldl_snoc, List.filter_app.
  rewrite (group_step_filter
             (fun k => negb (elem_of_strs k ([u "nav"; u "nav > menu"; u "header"] ++ formContexts)))).
  apply Permutation_app; [exact IH|]. simpl.
  destruct (negb _); reflexivity.
Qed.

Lemma with_no_context_nil elements : with_no_context [] elements = elements.
Proof.
  unfold with_no_context. induction elements as [|x l IH]; [reflexivity|].
  cbn [List.filter elem_of_strs existsb negb]. f_equal. exact IH.
Qed.

Lemma elem_of_strs_snoc c ks k :
  elem_of_strs c (ks ++ [k]) = elem_of_strs c ks || eqb c k.
Proof. unfold elem_of_strs. rewrite existsb_app. simpl. rewrite orb_false_r. reflexivity. Qed.

(** Taking the elements of one more context out of the rest *)
Lemma with_no_context_peel k ks elements :
  elem_of_strs k ks = false ->
  with_no_context ks elements
  ≡ₚ with_context k elements ++ with_no_context (ks ++ [k]) elements.
Proof.
  intros Hk. unfold with_no_context, with_context.
  induction elements as [|x l IH]; [reflexivity|].
  cbn [List.filter]. rewrite elem_of_strs_snoc.
  destruct (eqb (contextOf x) k) eqn:E.
  - apply eqb_eq in E. rewrite E, Hk, orb_true_r. cbn [negb app].
    apply Permutation_skip. exact IH.
  - rewrite orb_false_r. destruct (elem_of_strs (contextOf x) ks); cbn [negb]; [exact IH|].
    apply Permutation_cons_app, IH.
Qed.

(** X10. The four lists that [generateSemanticBody] renders (the
    navigation elements, the header elements, the form elements and
    the general elements) hold every element of the snapshot exactly
    once between them. *)
Theorem restore_buckets_partition elements :
  let groups := groupElementsByContext elements in
  (map_get_list (u "nav") groups ++ map_get_list (u "nav > menu") groups)
  ++ map_get_list (u "header") groups
  ++ flat_map (fun ctx => map_get_list ctx groups) formContexts
  ++ generalElemsOf groups
  ≡ₚ elements.
Proof.
  cbv zeta. destruct (groupElementsByContext_groups elements) as (_ & Hget & _).
  unfold formContexts at 1. cbn [flat_map]. rewrite !Hget, app_nil_r, <- !app_assoc.
  rewrite generalElemsOf_groups.
  transitivity (with_no_context [] elements);
    [|rewrite with_no_context_nil; reflexivity].
  symmetry.
  rewrite (with_no_context_peel (u "nav") []) by reflexivity.
  apply Permutation_app_head.
  rewrite (with_no_context_peel (u "nav > menu")) by reflexivity.
  apply Permutation_app_head.
  rewrite (with_no_context_peel (u "header")) by reflexivity.
  apply Permutation_app_head.
  rewrite (with_no_context_peel (u "form")) by reflexivity.
  apply Permutation_app_head.
  rewrite (with_no_context_peel (u "form > login")) by reflexivity.
  apply Permutation_app_head.
  rewrite (with_no_context_peel (u "login form")) by reflexivity.
  apply Permutation_app_head.
  rewrite (with_no_context_peel (u "search form")) by reflexivity.
  apply Permutation_app_head. reflexivity.
Qed.

Lemma substr_nil a : substr a [] -> a = [].
Proof.
  intros (p & q & H). symmetry in H.
  apply app_eq_nil in H as [_ H]. apply app_eq_nil in H as [H _]. exact H.
Qed.

Lemma elemToHtml_nonempty (e : Elem.t) indent : elemToHtml e indent <> [].
Proof.
  destruct (elemToHtml_shape e indent) as (a & b & c & ->).
  intros H. apply app_eq_nil in H as [_ H]. apply app_eq_nil in H as [_ H]. discriminate H.
Qed.

(** X11. [generateSemanticBody] produces the empty string, so that
    [restore] yields the bare page skeleton, exactly when the snapshot
    has no element and its text is blank. *)
Theorem empty_body snapshot :
  generateSemanticBody (groupElementsByContext (CompSnapshot.elems snapshot))
    (CompSnapshot.text snapshot) = []
  <-> CompSnapshot.elems snapshot = []
      /\ truthy (trim (CompSnapshot.text snapshot)) = false.
Proof.
  split.
  - intros H. split.
    + destruct (CompSnapshot.elems snapshot) as [|e l] eqn:E; [reflexivity|].
      destruct (element_rendered (e :: l) (CompSnapshot.text snapshot) e) as [indent Hr];
        [left|].
      rewrite H in Hr. apply substr_nil in Hr.
      exfalso. exact (elemToHtml_nonempty e indent Hr).
    + destruct (truthy (trim (CompSnapshot.text snapshot))) eqn:Ht; [|reflexivity].
      assert (Hs : substr (generateContentSection (CompSnapshot.text snapshot)
                             (generalElemsOf
                                (groupElementsByContext (CompSnapshot.elems snapshot))))
                          (generateSemanticBody
                             (groupElementsByContext (CompSnapshot.elems snapshot))
                             (CompSnapshot.text snapshot))).
      { apply body_parts. right. right. apply elem_of_app. right. rewrite Ht. left. }
      rewrite H in Hs. apply substr_nil in Hs. discriminate Hs.
  - intros [He Ht]. rewrite He. unfold generateSemanticBody. rewrite Ht. reflexivity.
Qed.

(** ** Escaping *)

Lemma escape_char_head x y a b :
  escape_char x ++ a = escape_char y ++ b -> x = y /\ a = b.
Proof.
  unfold escape_char.
  destruct (N.eqb_spec 38 x); [|destruct (N.eqb_spec 60 x); [|destruct (N.eqb_spec 62 x);
    [|destruct (N.eqb_spec 34 x); [|destruct (N.eqb_spec 39 x)]]]];
  (destruct (N.eqb_spec 38 y); [|destruct (N.eqb_spec 60 y); [|destruct (N.eqb_spec 62 y);
    [|destruct (N.eqb_spec 34 y); [|destruct (N.eqb_spec 39 y)]]]]);
  intros H; simpl in H; injection H; intros; subst; try discriminate;
    try contradiction; try (split; congruence).
Qed.

Lemma escape_char_nonempty x : escape_char x <> [].
Proof.
  unfold escape_char.
  repeat match goal with |- context [(?a =? x)%N] => destruct (a =? x)%N end; discriminate.
Qed.

Lemma flat_map_escape_injective a :
  forall b, flat_map escape_char a = flat_map escape_char b -> a = b.
Proof.
  induction a as [|x a IH]; intros [|y b] H; simpl in H.
  - reflexivity.
  - symmetry in H. apply app_eq_nil in H as [H _]. destruct (escape_char_nonempty y H).
  - apply app_eq_nil in H as [H _]. destruct (escape_char_nonempty x H).
  - apply escape_char_head in H as [-> H]. f_equal. apply IH, H.
Qed.

Lemma escape_char_length x : 1 <= length (escape_char x).
Proof.
  unfold escape_char.
  repeat match goal with |- context [(?a =? x)%N] => destruct (a =? x)%N end; simpl; lia.
Qed.

(** X12. [escapeHtml] loses nothing: two strings with the same escaped
    form are equal; the escaped form is never shorter than the string;
    and a string without [&], [<], [>], double quote and apostrophe is
    its own escaped form. *)
Theorem escapeHtml_faithful a :
  (forall b, escapeHtml a = escapeHtml b <-> a = b)
  /\ length a <= length (escapeHtml a)
  /\ (Forall (fun c => c <> 38%N /\ ~ markup_char c) a -> escapeHtml a = a).
Proof.
  split; [|split].
  - intros b. split; [|intros ->; reflexivity].
    rewrite !escapeHtml_chars. apply flat_map_escape_injective.
  - rewrite escapeHtml_chars. induction a as [|x a IH]; [reflexivity|].
    simpl. rewrite length_app. pose proof (escape_char_length x). lia.
  - rewrite escapeHtml_chars. induction a as [|x a IH]; intros H; [reflexivity|].
    apply Forall_cons in H as [[H38 Hm] H]. simpl. rewrite IH by exact H.
    unfold escape_char, markup_char in *.
    destruct (N.eqb_spec 38 x); [congruence|].
    destruct (N.eqb_spec 60 x); [exfalso; apply Hm; auto|].
    destruct (N.eqb_spec 62 x); [exfalso; apply Hm; auto|].
    destruct (N.eqb_spec 34 x); [exfalso; apply Hm; auto|].
    destruct (N.eqb_spec 39 x); [exfalso; apply Hm; auto|].
    reflexivity.
Qed.

(** ** The class and id patterns *)

Lemma upperA_idem c : upperA (upperA c) = upperA c.
Proof.
  unfold upperA. destruct (is_lowerA c) eqn:L; [|rewrite L; reflexivity].
  assert (Hl : is_lowerA (c - 32)%N = false) by (unfold is_lowerA in *; case_ranges).
  rewrite Hl. reflexivity.
Qed.

Lemma chr_match_upper a c : chr_match true a (upperA c) = chr_match true a c.
Proof. unfold chr_match. rewrite upperA_idem. reflexivity. Qed.

Lemma cls_match_upper neg p c : cls_match true neg p (upperA c) = cls_match true neg p c.
Proof.
  unfold cls_match. f_equal. cbn [andb]. rewrite upperA_idem.
  destruct (is_lowerA c) eqn:L.
  - assert (Hu : upperA c = (c - 32)%N) by (unfold upperA; rewrite L; reflexivity).
    assert (Hl : lowerA c = c).
    { unfold lowerA. replace (is_upperA c) with false; [reflexivity|].
      symmetry. unfold is_lowerA, is_upperA in *. case_ranges. }
    assert (Hlu : lowerA (c - 32)%N = c).
    { unfold lowerA. replace (is_upperA (c - 32)%N) with true.
      - unfold is_lowerA in L. apply andb_prop in L as [L _]. apply N.leb_le in L. lia.
      - symmetry. unfold is_lowerA, is_upperA in *. case_ranges. }
    rewrite Hu, Hl, Hlu. destruct (p c), (p (c - 32)%N); reflexivity.
  - assert (Hu : upperA c = c) by (unfold upperA; rewrite L; reflexivity).
    rewrite Hu. reflexivity.
Qed.

Section CaseBlind.
Context {A : Type}.

Lemma lit_case_blind a :
  forall (K K' : @cont A), case_blind K K' -> case_blind (lit true a K) (lit true a K').
Proof.
  induction a as [|x a IH]; intros K K' HK j s c c'; cbn [lit]; [apply HK|].
  destruct s as [|y s]; [reflexivity|]. cbn [map]. rewrite chr_match_upper.
  destruct (chr_match true x y); [apply IH, HK|reflexivity].
Qed.

Lemma rep_case_blind greedy neg p (K K' : @cont A) :
  case_blind K K' ->
  forall s lo hi j c c',
    is_some (rep true greedy lo hi neg p K j s c)
    = is_some (rep true greedy lo hi neg p K' j (map upperA s) c').
Proof.
  intros HK. induction s as [|y s IH]; intros lo hi j c c'.
  - cbn [rep map]. destruct lo; [apply (HK j [])|reflexivity].
  - cbn [rep map]. rewrite cls_match_upper.
    destruct (room hi && cls_match true neg p y).
    + destruct lo as [|lo]; [|apply IH].
      destruct greedy; rewrite !is_some_orelse.
      * rewrite (IH 0 (less hi) (S j) c c'). f_equal. apply (HK j (y :: s)).
      * rewrite (IH 0 (less hi) (S j) c c'). f_equal. apply (HK j (y :: s)).
    + destruct lo; [apply (HK j (y :: s))|reflexivity].
Qed.

Lemma run_case_blind r :
  forall (K K' : @cont A), case_blind K K' -> case_blind (run true r K) (run true r K').
Proof.
  induction r as [a|neg p|greedy lo hi neg p|r1 IH1 r2 IH2|r1 IH1 r2 IH2|r IH| |];
    intros K K' HK j s c c'; cbn [run].
  - apply lit_case_blind, HK.
  - destruct s as [|y s]; [reflexivity|]. cbn [map]. rewrite cls_match_upper.
    destruct (cls_match true neg p y); [apply HK|reflexivity].
  - apply rep_case_blind, HK.
  - apply IH1. apply IH2, HK.
  - rewrite !is_some_orelse. rewrite (IH1 K K' HK j s c c'), (IH2 K K' HK j s c c').
    reflexivity.
  - apply IH. intros j' s' d d'. apply HK.
  - destruct j; [apply HK|reflexivity].
  - destruct s as [|y s]; [apply (HK j [])|reflexivity].
Qed.
End CaseBlind.

(** A pattern anchored at the start, under the [i] flag, does not see
    the case of the input. *)
Lemma test_case_blind r s :
  test true (Seq Bol r) s = test true (Seq Bol r) (map upperA s).
Proof.
  rewrite !test_bol. unfold match_at.
  apply (run_case_blind (Seq Bol r)). intros j s' c c'. reflexivity.
Qed.

Lemma meaningfulClassPattern_words c :
  test true meaningfulClassPattern c
  = existsb (fun w => eqb_nocase w c) meaningful_words.
Proof.
  unfold meaningfulClassPattern. cbn [seq]. rewrite test_bol.
  unfold match_at. cbn [run alt map].
  set (K := fun (j : nat) (s' : str) (_ : option str) =>
              match s' with
              | [] => Some (j, Some (take (j - 0) c))
              | _ :: _ => None
              end).
  assert (HK : forall j s d, is_some (K j s d) = match s with [] => true | _ => false end)
    by (intros j [|? ?] ?; reflexivity).
  rewrite !is_some_orelse, !(lit_end K HK).
  unfold meaningful_words. cbn [map existsb]. rewrite orb_false_r. reflexivity.
Qed.

Lemma meaningful_words_pass :
  forallb (fun w => negb (test true meaninglessClassPattern (map upperA w)))
          meaningful_words = true.
Proof. vm_compute. reflexivity. Qed.

(** X13. [isMeaningfulClass] accepts exactly the 28 words of its first
    pattern, in any mix of upper and lower case. Its second pattern,
    the list of utility classes, rejects none of them: it never changes
    the answer. *)
Theorem isMeaningfulClass_words c :
  isMeaningfulClass c = existsb (fun w => eqb_nocase w c) meaningful_words.
Proof.
  unfold isMeaningfulClass. rewrite meaningfulClassPattern_words.
  destruct (existsb (fun w => eqb_nocase w c) meaningful_words) eqn:E; [|reflexivity].
  apply existsb_exists in E as (w & Hw & Hc).
  pose proof meaningful_words_pass as Hall. rewrite forallb_forall in Hall.
  specialize (Hall w Hw). unfold eqb_nocase in Hc. apply eqb_eq in Hc.
  unfold meaninglessClassPattern in *. cbn [seq] in *.
  rewrite test_case_blind, <- Hc. rewrite Hall. reflexivity.
Qed.

(** X14. [isMeaningfulId] accepts an id exactly when it has more than 2
    and fewer than 30 characters and is none of: the word [auto], [gen]
    or [temp] in any case, a run of eight or more hexadecimal digits, a
    run of decimal digits. *)
Theorem isMeaningfulId_decided i :
  isMeaningfulId i = true
  <-> looks_generated i = false /\ 2 < length i < 30.
Proof. exact (isMeaningfulId_spec i). Qed.

(** ** The fingerprint *)

Lemma toInt32_repr z :
  exists k, toInt32 z = (z + k * 4294967296)%Z
            /\ (-2147483648 <= toInt32 z < 2147483648)%Z.
Proof.
  unfold toInt32. change (2 ^ 31)%Z with 2147483648%Z. change (2 ^ 32)%Z with 4294967296%Z.
  exists (- ((z + 2147483648) / 4294967296))%Z.
  pose proof (Z.div_mod (z + 2147483648) 4294967296 ltac:(lia)).
  pose proof (Z.mod_pos_bound (z + 2147483648) 4294967296 ltac:(lia)).
  lia.
Qed.

Lemma toInt32_eq a b :
  toInt32 a = toInt32 b <-> ((a - b) mod 4294967296 = 0)%Z.
Proof.
  destruct (toInt32_repr a) as (ka & Ha & Ra), (toInt32_repr b) as (kb & Hb & Rb).
  split.
  - intros E. replace (a - b)%Z with ((kb - ka) * 4294967296)%Z by lia.
    apply Z_mod_mult.
  - intros E. apply Z.mod_divide in E; [|lia]. destruct E as [q E]. lia.
Qed.

Lemma hash_step_poly p c :
  hash_step (toInt32 p) c = toInt32 (31 * p + Z.of_N c).
Proof.
  unfold hash_step. apply toInt32_eq.
  destruct (toInt32_repr p) as (k & Hk & _).
  destruct (toInt32_repr (toInt32 p)) as (k1 & Hk1 & _).
  destruct (toInt32_repr (toInt32 (toInt32 p) * 32)) as (k2 & Hk2 & _).
  match goal with
  | |- (?x mod _ = 0)%Z =>
      replace x with ((31 * k + 32 * k1 + k2) * 4294967296)%Z by lia
  end.
  apply Z_mod_mult.
Qed.

Lemma fold_hash_poly s :
  forall p,
    fold_left hash_step s (toInt32 p)
    = toInt32 (fold_left (fun h c => (31 * h + Z.of_N c)%Z) s p).
Proof.
  induction s as [|c s IH]; intros p; [reflexivity|].
  cbn [fold_left]. rewrite hash_step_poly. apply IH.
Qed.

Lemma digit36_val_digit36 d :
  (0 <= d < 36)%Z -> digit36_val (digit36 d) = d /\ digit36 d <> 45%N.
Proof.
  intros H. unfold digit36_val, digit36.
  destruct (d <? 10)%Z eqn:E.
  - apply Z.ltb_lt in E. replace (Z.to_N (48 + d) <? 58)%N with true by (symmetry; apply N.ltb_lt; lia).
    split; lia.
  - apply Z.ltb_ge in E. replace (Z.to_N (87 + d) <? 58)%N with false by (symmetry; apply N.ltb_ge; lia).
    split; lia.
Qed.

Lemma digits36_value n :
  forall z acc,
    (0 <= z < 36 ^ Z.of_nat n)%Z -> 0 < n ->
    exists d ds,
      digits36 n z acc = (d :: ds) ++ acc
      /\ d <> 45%N
      /\ fold_left (fun v c => (36 * v + digit36_val c)%Z) (d :: ds) 0%Z = z.
Proof.
  induction n as [|n IH]; intros z acc Hz Hn; [lia|].
  cbn [digits36].
  pose proof (Z.div_mod z 36 ltac:(lia)) as Hdm.
  pose proof (Z.mod_pos_bound z 36 ltac:(lia)) as Hm.
  destruct (digit36_val_digit36 (z mod 36) Hm) as [Hv Hd].
  destruct (z / 36 =? 0)%Z eqn:E.
  - apply Z.eqb_eq in E. exists (digit36 (z mod 36)), []. split; [reflexivity|].
    split; [exact Hd|]. cbn [fold_left]. lia.
  - apply Z.eqb_neq in E.
    assert (Hq : (0 <= z / 36 < 36 ^ Z.of_nat n)%Z).
    { split; [apply Z.div_pos; lia|].
      apply Z.div_lt_upper_bound; [lia|].
      replace (Z.of_nat (S n)) with (Z.of_nat n + 1)%Z in Hz by lia.
      rewrite Z.pow_add_r in Hz by lia. lia. }
    assert (Hn' : 0 < n).
    { destruct n; [|lia]. change (36 ^ Z.of_nat 0)%Z with 1%Z in Hq. lia. }
    destruct (IH (z / 36)%Z (digit36 (z mod 36) :: acc) Hq Hn') as (d & ds & -> & Hd' & Hval).
    exists d, (ds ++ [digit36 (z mod 36)]). split.
    { rewrite <- !app_comm_cons, <- app_assoc. reflexivity. }
    split; [exact Hd'|].
    rewrite app_comm_cons, fold_left_app, Hval. cbn [fold_left]. lia.
Qed.

Lemma ofString36_toString36 z :
  (-2147483648 <= z < 2147483648)%Z -> ofString36 (toString36 z) = z.
Proof.
  intros Hz. unfold toString36.
  destruct (z <? 0)%Z eqn:E.
  - apply Z.ltb_lt in E.
    destruct (digits36_value 7 (- z) []) as (d & ds & -> & _ & Hv); [|lia|].
    { change (36 ^ Z.of_nat 7)%Z with 78364164096%Z. lia. }
    rewrite app_nil_r. change (u "-") with [45%N]. cbn [app ofString36].
    rewrite Hv. lia.
  - apply Z.ltb_ge in E.
    destruct (digits36_value 7 z []) as (d & ds & -> & Hd & Hv); [|lia|].
    { change (36 ^ Z.of_nat 7)%Z with 78364164096%Z. lia. }
    rewrite app_nil_r. unfold ofString36.
    destruct d as [|q]; [exact Hv|].
    do 6 (try (destruct q as [q|q|]; try exact Hv;
               try (exfalso; apply Hd; reflexivity))).
Qed.

Lemma generateHtmlHash_poly html :
  generateHtmlHash html = toString36 (toInt32 (poly31 (take 1000 html))).
Proof.
  unfold generateHtmlHash, poly31. f_equal.
  change 0%Z with (toInt32 0) at 1. apply fold_hash_poly.
Qed.

(** X15. The cache key of a markup is the base-36 numeral of the
    31-polynomial hash of its first 1000 code units, reduced to a signed
    32-bit integer: reading the key back gives that integer, so two
    markups share a key exactly when their polynomial hashes agree
    modulo 2^32. *)
Theorem cache_key_is_hash html :
  ofString36 (generateHtmlHash html) = toInt32 (poly31 (take 1000 html))
  /\ (forall html',
        generateHtmlHash html = generateHtmlHash html'
        <-> ((poly31 (take 1000 html) - poly31 (take 1000 html')) mod 2 ^ 32 = 0)%Z).
Proof.
  assert (Hback : forall h, ofString36 (generateHtmlHash h) = toInt32 (poly31 (take 1000 h))).
  { intros h. rewrite generateHtmlHash_poly.
    destruct (toInt32_repr (poly31 (take 1000 h))) as (k & _ & R).
    apply ofString36_toString36, R. }
  split; [apply Hback|].
  intros html'. change (2 ^ 32)%Z with 4294967296%Z. rewrite <- toInt32_eq. split.
  - intros E. rewrite <- !Hback, E. reflexivity.
  - intros E. rewrite !generateHtmlHash_poly, E. reflexivity.
Qed.

(** ** The visible text *)

Lemma cls_ws c : cls_match false false is_ws c = is_ws c.
Proof. unfold cls_match. cbn [andb xorb]. rewrite orb_false_r. reflexivity. Qed.

Lemma rep_ws_run s :
  forall i,
    rep false true 0 None false is_ws (fun j _ cap => Some (j, cap)) i s None
    = Some (i + wsrun s, @None str).
Proof.
  induction s as [|c s IH]; intros i; cbn [rep wsrun room less andb].
  - rewrite Nat.add_0_r. reflexivity.
  - rewrite cls_ws. destruct (is_ws c).
    + rewrite IH. do 2 f_equal. lia.
    + rewrite Nat.add_0_r. reflexivity.
Qed.

Lemma match_spaces i s :
  match_at false spaces_re i s
  = match s with
    | c :: s' => if is_ws c then Some (S i + wsrun s', None) else None
    | [] => None
    end.
Proof.
  unfold match_at, spaces_re, plus. cbn [run].
  destruct s as [|c s]; cbn [rep room less andb]; [reflexivity|].
  rewrite cls_ws. destruct (is_ws c); [apply rep_ws_run|reflexivity].
Qed.

Lemma segments_spaces s :
  forall i,
    let f := fun x : char + str => match x with inr _ => u " " | inl c => [c] end in
    flat_map f (segments false spaces_re i (wsrun s) s) = squeeze true s
    /\ flat_map f (segments false spaces_re i 0 s) = squeeze false s.
Proof.
  induction s as [|c s IH]; intros i f.
  - cbn [wsrun segments]. rewrite match_spaces. split; reflexivity.
  - destruct (IH (S i)) as [IHt IHf]. fold f in IHt, IHf.
    cbn [wsrun squeeze]. destruct (is_ws c) eqn:E.
    + split.
      * cbn [segments]. exact IHt.
      * cbn [segments]. rewrite match_spaces, E.
        replace (S i + wsrun s - i) with (S (wsrun s)) by lia.
        cbn [flat_map]. rewrite IHt. reflexivity.
    + assert (H : flat_map f (segments false spaces_re i 0 (c :: s)) = c :: squeeze false s).
      { cbn [segments]. rewrite match_spaces, E. cbn [flat_map]. rewrite IHf. reflexivity. }
      split; exact H.
Qed.

Lemma replace_spaces s : replace_all false spaces_re (u " ") s = squeeze false s.
Proof. unfold replace_all. apply (segments_spaces s 0). Qed.

Lemma squeeze_chars b s : Forall (fun c => is_ws c = true -> c = 32%N) (squeeze b s).
Proof.
  revert b. induction s as [|c s IH]; intros b; cbn [squeeze]; [constructor|].
  destruct (is_ws c) eqn:E.
  - destruct b; [apply IH|]. constructor; [reflexivity|apply IH].
  - constructor; [congruence|apply IH].
Qed.

Lemma squeeze_head s c r : squeeze true s = c :: r -> is_ws c = false.
Proof.
  revert c r. induction s as [|x s IH]; intros c r; cbn [squeeze]; [discriminate|].
  destruct (is_ws x) eqn:E; [apply IH|].
  intros H. injection H as <- _. exact E.
Qed.

Lemma squeeze_spaced b s : spaced (squeeze b s) = true.
Proof.
  revert b. induction s as [|c s IH]; intros b; cbn [squeeze]; [reflexivity|].
  destruct (is_ws c) eqn:E.
  - destruct b; [apply IH|].
    cbn [spaced]. destruct (squeeze true s) as [|d r] eqn:S; [reflexivity|].
    rewrite (squeeze_head _ _ _ S), andb_false_r. cbn [negb andb].
    rewrite <- S. apply IH.
  - cbn [spaced]. destruct (squeeze false s) as [|d r] eqn:S; [reflexivity|].
    rewrite E. cbn [negb andb]. rewrite <- S. apply IH.
Qed.

Lemma spaced_tail a s : spaced (a :: s) = true -> spaced s = true.
Proof.
  cbn [spaced]. destruct s as [|b s]; [reflexivity|].
  intros H. apply andb_prop in H as [_ H]. exact H.
Qed.

Lemma spaced_suffix p s : spaced (p ++ s) = true -> spaced s = true.
Proof.
  induction p as [|a p IH]; [auto|]. intros H. apply IH, (spaced_tail a), H.
Qed.

Lemma spaced_prefix s q : spaced (s ++ q) = true -> spaced s = true.
Proof.
  induction s as [|a s IH]; [reflexivity|].
  intros H. pose proof (spaced_tail _ _ H) as Ht. specialize (IH Ht).
  destruct s as [|b s]; [reflexivity|].
  cbn [spaced app] in H |- *. apply andb_prop in H as [H _].
  rewrite H. exact IH.
Qed.

Lemma spaced_no_double s : spaced s = true -> ~ substr (u "  ") s.
Proof.
  intros H (pre & post & ->). apply spaced_suffix in H. discriminate H.
Qed.

Lemma trimStart_suffix s : exists p, s = p ++ trimStart s.
Proof.
  induction s as [|c s [p IH]]; [exists []; reflexivity|].
  cbn [trimStart]. destruct (is_ws c).
  - exists (c :: p). cbn [app]. f_equal. exact IH.
  - exists []. reflexivity.
Qed.

Lemma trimStart_head s c r : trimStart s = c :: r -> is_ws c = false.
Proof.
  induction s as [|x s IH]; cbn [trimStart]; [discriminate|].
  destruct (is_ws x) eqn:E; [exact IH|].
  intros H. injection H as <- _. exact E.
Qed.

Lemma trimStart_fixed c r : is_ws c = false -> trimStart (c :: r) = c :: r.
Proof. intros E. cbn [trimStart]. rewrite E. reflexivity. Qed.

Lemma trimStart_idem s : trimStart (trimStart s) = trimStart s.
Proof.
  destruct (trimStart s) as [|c r] eqn:E; [reflexivity|].
  apply trimStart_fixed, (trimStart_head _ _ _ E).
Qed.

Lemma trimEnd_prefix s : exists q, s = trimEnd s ++ q.
Proof.
  destruct (trimStart_suffix (rev s)) as [p H].
  exists (rev p). unfold trimEnd. rewrite <- rev_app_distr, <- H, rev_involutive.
  reflexivity.
Qed.

Lemma trimEnd_idem s : trimEnd (trimEnd s) = trimEnd s.
Proof. unfold trimEnd. rewrite rev_involutive, trimStart_idem. reflexivity. Qed.

Lemma trim_idem s : trim (trim s) = trim s.
Proof.
  unfold trim.
  assert (H : trimStart (trimEnd (trimStart s)) = trimEnd (trimStart s)).
  { destruct (trimEnd_prefix (trimStart s)) as [q Hq].
    destruct (trimEnd (trimStart s)) as [|c r]; [reflexivity|].
    apply trimStart_fixed, (trimStart_head s c (r ++ q)), Hq. }
  rewrite H. apply trimEnd_idem.
Qed.

Lemma trim_within s : exists p q, s = p ++ trim s ++ q.
Proof.
  destruct (trimStart_suffix s) as [p Hp].
  destruct (trimEnd_prefix (trimStart s)) as [q Hq].
  exists p, q. unfold trim. rewrite <- Hq. exact Hp.
Qed.

Lemma getText_shape html :
  let t := getText html in
  trim t = t
  /\ Forall (fun c => is_ws c = true -> c = 32%N) t
  /\ ~ substr (u "  ") t.
Proof.
  unfold getText. rewrite replace_spaces.
  set (s := replace_all false tag_re _ _). cbv zeta.
  destruct (trim_within (squeeze false s)) as (p & q & H).
  split; [apply trim_idem|]. split.
  - pose proof (squeeze_chars false s) as F. rewrite H in F.
    apply Forall_app in F as [_ F]. apply Forall_app in F as [F _]. exact F.
  - apply spaced_no_double.
    pose proof (squeeze_spaced false s) as F. rewrite H in F.
    apply spaced_suffix, spaced_prefix in F. exact F.
Qed.

(** X16. The visible text is in normal form: it neither starts nor ends
    with white space, its only white-space character is the plain
    space, and no two spaces stand side by side. *)
Theorem getText_normal html :
  let t := getText html in
  trim t = t
  /\ Forall (fun c => is_ws c = true -> c = 32%N) t
  /\ ~ substr (u "  ") t.
Proof. exact (getText_shape html). Qed.

(** ** The title *)

Section Through.
Context {A : Type}.
Variable ci : bool.
Variable P : option A -> Prop.
Hypothesis P_none : P None.

Lemma lit_through a (K : cont) cap :
  (forall j s, P (K j s cap)) -> forall i s, P (lit ci a K i s cap).
Proof.
  intros HK. induction a as [|x a IH]; intros i s; cbn [lit]; [apply HK|].
  destruct s as [|c s]; [exact P_none|].
  destruct (chr_match ci x c); [apply IH|exact P_none].
Qed.

Lemma rep_through greedy neg p (K : cont) cap :
  (forall j s, P (K j s cap)) ->
  forall s lo hi i, P (rep ci greedy lo hi neg p K i s cap).
Proof.
  intros HK. induction s as [|c s IH]; intros lo hi i; cbn [rep].
  - destruct lo; [apply HK|exact P_none].
  - destruct (room hi && cls_match ci neg p c).
    + destruct lo as [|lo]; [|apply IH].
      destruct greedy.
      * specialize (IH 0 (less hi) (S i)).
        destruct (rep ci true 0 (less hi) neg p K (S i) s cap); [exact IH|apply HK].
      * specialize (HK i (c :: s)).
        destruct (K i (c :: s) cap); [exact HK|apply IH].
    + destruct lo; [apply HK|exact P_none].
Qed.
End Through.

(** A quantifier hands to its continuation a prefix of characters of
    its class. *)
Lemma rep_reach {A} ci greedy neg p (K : @cont A) cap x :
  forall s lo hi i,
    rep ci greedy lo hi neg p K i s cap = Some x ->
    exists n,
      K (i + n) (drop n s) cap = Some x
      /\ Forall (fun c => cls_match ci neg p c = true) (take n s).
Proof.
  assert (Hzero : forall i s, K i s cap = Some x ->
    exists n, K (i + n) (drop n s) cap = Some x
              /\ Forall (fun c => cls_match ci neg p c = true) (take n s)).
  { intros i s H. exists 0. rewrite Nat.add_0_r. split; [exact H|constructor]. }
  assert (Hnext : forall c i s,
    cls_match ci neg p c = true ->
    (exists n, K (S i + n) (drop n s) cap = Some x
               /\ Forall (fun c => cls_match ci neg p c = true) (take n s)) ->
    exists n, K (i + n) (drop n (c :: s)) cap = Some x
              /\ Forall (fun c => cls_match ci neg p c = true) (take n (c :: s))).
  { intros c i s Hc (n & H & F). exists (S n).
    replace (i + S n) with (S i + n) by lia. split; [exact H|].
    cbn [take]. constructor; [exact Hc|exact F]. }
  induction s as [|c s IH]; intros lo hi i; cbn [rep].
  - destruct lo; [apply Hzero|discriminate].
  - destruct (room hi && cls_match ci neg p c) eqn:E.
    + apply andb_prop in E as [_ E].
      destruct lo as [|lo]; [|intros H; apply Hnext, (IH _ _ _ H); exact E].
      destruct greedy.
      * destruct (rep ci true 0 (less hi) neg p K (S i) s cap) eqn:R.
        -- intros H. injection H as <-. apply Hnext, (IH _ _ _ R). exact E.
        -- apply Hzero.
      * destruct (K i (c :: s) cap) eqn:R.
        -- intros H. injection H as <-. apply Hzero, R.
        -- intros H. apply Hnext, (IH _ _ _ H). exact E.
    + destruct lo; [apply Hzero|discriminate].
Qed.

Lemma match_title_one_line i s : one_line (match_at true title_re i s).
Proof.
  unfold match_at, title_re, star, lazy_star. cbn [seq run].
  apply lit_through; [exact I|]. intros i1 s1.
  apply rep_through; [exact I|]. intros i2 s2.
  apply lit_through; [exact I|]. intros i3 s3.
  match goal with |- one_line ?m => destruct m as [x|] eqn:R; [|exact I] end.
  apply rep_reach in R as (n & R & F).
  match type of R with
  | lit _ _ ?K _ _ ?cap = _ =>
      assert (H : one_line (lit true (u "</title>") K (i3 + n) (drop n s3) cap))
  end.
  { apply lit_through; [exact I|]. intros j s'. cbn [one_line].
    replace (i3 + n - i3) with n by lia.
    eapply Forall_impl; [exact F|]. intros c Hc. cbn beta in Hc.
    unfold cls_match in Hc. destruct (is_lt c); [discriminate Hc|reflexivity]. }
  rewrite R in H. exact H.
Qed.

Lemma exec_title_one_line s :
  forall i,
    match exec_from true title_re i s with
    | Some (_, Some t) => Forall (fun c => is_lt c = false) t
    | _ => True
    end.
Proof.
  induction s as [|c s IH]; intros i.
  - cbn [exec_from]. pose proof (match_title_one_line i []) as H.
    destruct (match_at true title_re i []) as [[j [t|]]|]; auto.
  - cbn [exec_from]. pose proof (match_title_one_line i (c :: s)) as H.
    destruct (match_at true title_re i (c :: s)) as [[j [t|]]|]; auto.
    apply IH.
Qed.

Lemma getTitle_shape html :
  getTitle html <> []
  /\ trim (getTitle html) = getTitle html
  /\ Forall (fun c => is_lt c = false) (getTitle html).
Proof.
  assert (HPage : u "Page" <> [] /\ trim (u "Page") = u "Page"
                  /\ Forall (fun c => is_lt c = false) (u "Page")).
  { split; [discriminate|]. split; [reflexivity|].
    repeat constructor. }
  unfold getTitle, exec. cbv zeta.
  pose proof (exec_title_one_line html 0) as H.
  destruct (exec_from true title_re 0 html) as [[m [t|]]|]; try exact HPage.
  unfold or_else. destruct (trim t) as [|c r] eqn:E; [exact HPage|].
  split; [discriminate|]. rewrite <- E. split; [apply trim_idem|].
  destruct (trim_within t) as (p & q & Hpq). rewrite Hpq in H.
  apply Forall_app in H as [_ H]. apply Forall_app in H as [H _]. exact H.
Qed.

(** X17. The title of a snapshot is never empty, neither starts nor
    ends with white space, and is a single line: without a usable
    [title] element it is the word [Page]. *)
Theorem getTitle_line html :
  let t := getTitle html in
  t <> []
  /\ trim t = t
  /\ Forall (fun c => is_lt c = false) t.
Proof. exact (getTitle_shape html). Qed.

(** ** Contexts *)



Lemma getElemsRegex_contextless html : Forall contextless (getElemsRegex html).
Proof.
  unfold getElemsRegex. rewrite !Forall_app. repeat split.
  - apply Forall_flat_map, Forall_forall. intros m _.
    destruct (truthy _); repeat constructor.
  - apply Forall_flat_map, Forall_forall. intros m _.
    destruct (truthy _); repeat constructor.
  - apply Forall_map, Forall_forall. intros m _. reflexivity.
Qed.


Lemma group_contextless elems :
  Forall contextless elems ->
  groupElementsByContext elems
  = match elems with [] => [] | _ => [(u "main", elems)] end.
Proof.
  rewrite groupElementsByContext_foldl.
  induction elems as [|x l IH] using rev_ind; intros H; [reflexivity|].
  apply Forall_app in H as [Hl Hx]. apply Forall_cons in Hx as [Hx _].
  rewrite foldl_snoc, (IH Hl).
  assert (Hc : contextOf x = u "main") by (unfold contextOf; rewrite Hx; reflexivity).
  unfold group_step. rewrite Hc.
  destruct l as [|a l]; reflexivity.
Qed.

(** X19. A snapshot whose elements carry no context, as every snapshot
    of the regular-expression pass, is restored without navigation,
    header or form: the body is one [main] block with one content
    section, which holds the text and all the elements in their order;
    it is empty if there is neither text nor element. *)
Theorem contextless_body :
  (forall html n, Forall contextless (slice0 n (getElemsRegex html)))
  /\ (forall elems text,
        Forall contextless elems ->
        generateSemanticBody (groupElementsByContext elems) text
        = if truthy (trim text) || (0 <? length elems)
          then u "  <main>" ++ nl ++ generateContentSection text elems ++ nl
               ++ u "  </main>"
          else []).
Proof.
  split; [intros html n; apply Forall_slice0, getElemsRegex_contextless|].
  intros elems text H. rewrite (group_contextless elems H).
  destruct elems as [|a l].
  - unfold generateSemanticBody. destruct (truthy (trim text)); reflexivity.
  - assert (Hg : generalElemsOf [(u "main", a :: l)] = a :: l).
    { unfold generalElemsOf. cbn [List.filter flat_map snd fst].
      change (elem_of_strs (u "main") _) with false. cbn [negb flat_map snd].
      apply app_nil_r. }
    unfold generateSemanticBody. rewrite Hg.
    destruct (truthy (trim text)); reflexivity.
Qed.

(** ** Repeated calls *)










(** ** The title through a restoration *)

Lemma chr_match_refl ci a : chr_match ci a a = true.
Proof. unfold chr_match. destruct ci; apply N.eqb_refl. Qed.

Lemma lit_prefix {A} ci a (K : @cont A) cap :
  forall i s, lit ci a K i (a ++ s) cap = K (i + length a) s cap.
Proof.
  induction a as [|x a IH]; intros i s; cbn [lit app length].
  - rewrite Nat.add_0_r. reflexivity.
  - rewrite chr_match_refl, IH.
    replace (i + S (length a)) with (S i + length a) by lia. reflexivity.
Qed.

Lemma lit_mismatch {A} ci x a (K : @cont A) cap j c s :
  chr_match ci x c = false -> lit ci (x :: a) K j (c :: s) cap = None.
Proof. intros H. cbn [lit]. rewrite H. reflexivity. Qed.

(** A lazy quantifier walks over characters of its class on which the
    continuation fails. *)
Lemma rep_lazy_until {A} ci neg p (K : @cont A) cap x T :
  forall E i,
    Forall (fun c => cls_match ci neg p c = true
                     /\ forall j s', K j (c :: s') cap = None) E ->
    K (i + length E) T cap = Some x ->
    rep ci false 0 None neg p K i (E ++ T) cap = Some x.
Proof.
  induction E as [|c E IH]; intros i HE HK.
  - cbn [app length] in *. rewrite Nat.add_0_r in HK.
    destruct T as [|c T]; cbn [rep]; [exact HK|].
    destruct (room None && cls_match ci neg p c); [rewrite HK; reflexivity|exact HK].
  - apply Forall_cons in HE as [[Hc Hf] HE]. cbn [app rep room andb less].
    rewrite Hc, Hf. apply IH; [exact HE|].
    cbn [length] in HK. replace (S i + length E) with (i + S (length E)) by lia.
    exact HK.
Qed.

Lemma exec_from_hit ci r i s j cap :
  match_at ci r i s = Some (j, cap) ->
  exec_from ci r i s = Some (take (j - i) s, cap).
Proof. intros H. destruct s; cbn [exec_from]; rewrite H; reflexivity. Qed.

Lemma is_lt_cases x :
  is_lt x = true -> x = 10%N \/ x = 13%N \/ x = 8232%N \/ x = 8233%N.
Proof.
  unfold is_lt. rewrite !orb_true_iff, !N.eqb_eq. tauto.
Qed.

Lemma cls_not_lt c : is_lt c = false -> cls_match true true is_lt c = true.
Proof.
  intros Hc. unfold cls_match. cbn [andb]. rewrite Hc. cbn [orb].
  assert (Hl : is_lt (lowerA c) = false).
  { destruct (is_lt (lowerA c)) eqn:H; [exfalso|reflexivity].
    apply is_lt_cases in H. unfold lowerA in H.
    destruct (is_upperA c) eqn:U.
    - unfold is_upperA in U. apply andb_prop in U as [U1 U2].
      apply N.leb_le in U1, U2. lia.
    - destruct H as [-> | [-> | [-> | ->]]]; discriminate Hc. }
  assert (Hu : is_lt (upperA c) = false).
  { destruct (is_lt (upperA c)) eqn:H; [exfalso|reflexivity].
    apply is_lt_cases in H. unfold upperA in H.
    destruct (is_lowerA c) eqn:L.
    - unfold is_lowerA in L. apply andb_prop in L as [L1 L2].
      apply N.leb_le in L1, L2. lia.
    - destruct H as [-> | [-> | [-> | ->]]]; discriminate Hc. }
  rewrite Hl, Hu. reflexivity.
Qed.

Lemma chr_not_lt_sign c : c <> 60%N -> chr_match true 60%N c = false.
Proof.
  intros H. unfold chr_match, upperA. change (is_lowerA 60%N) with false. cbv iota.
  apply N.eqb_neq. destruct (is_lowerA c) eqn:L; [|congruence].
  unfold is_lowerA in L. apply andb_prop in L as [L1 L2].
  apply N.leb_le in L1, L2. lia.
Qed.

Lemma title_skip c s i :
  chr_match true 60%N c = false ->
  exec_from true title_re i (c :: s) = exec_from true title_re (S i) s.
Proof.
  intros H.
  assert (M : match_at true title_re i (c :: s) = None).
  { unfold match_at, title_re. cbn [seq run].
    change (u "<title") with (60%N :: u "title"). apply lit_mismatch, H. }
  cbn [exec_from]. rewrite M. reflexivity.
Qed.

Lemma title_skip_tag c s i :
  chr_match true 116%N c = false ->
  exec_from true title_re i (60%N :: c :: s) = exec_from true title_re (S i) (c :: s).
Proof.
  intros H.
  assert (M : match_at true title_re i (60%N :: c :: s) = None).
  { unfold match_at, title_re. cbn [seq run].
    change (u "<title") with (60%N :: 116%N :: u "itle").
    cbn [lit]. rewrite chr_match_refl, H. reflexivity. }
  cbn [exec_from]. rewrite M. reflexivity.
Qed.

Lemma match_title_here E R i :
  Forall title_char E ->
  exists j,
    match_at true title_re i (u "<title>" ++ E ++ u "</title>" ++ R) = Some (j, Some E).
Proof.
  intros HE. unfold match_at, title_re, star, lazy_star. cbn [seq run].
  change (u "<title>" ++ E ++ u "</title>" ++ R)
    with (u "<title" ++ 62%N :: E ++ u "</title>" ++ R).
  rewrite lit_prefix. cbn [rep room andb less].
  change (cls_match true true not_gt 62%N) with false. cbv iota.
  change (62%N :: E ++ u "</title>" ++ R) with (u ">" ++ E ++ u "</title>" ++ R).
  rewrite lit_prefix. eexists.
  apply rep_lazy_until.
  - eapply Forall_impl; [exact HE|]. intros c [Hc Hs]. split; [apply cls_not_lt, Hc|].
    intros j s'. change (u "</title>") with (60%N :: u "/title>").
    apply lit_mismatch, chr_not_lt_sign, Hs.
  - rewrite lit_prefix.
    match goal with
    | |- context [take ?n (E ++ ?T)] =>
        replace n with (length E) by lia; rewrite (take_app_length E T)
    end.
    reflexivity.
Qed.

Lemma exec_title_page E R :
  Forall title_char E ->
  exists m,
    exec true title_re
      (u "<!DOCTYPE html>" ++ nl ++ u "<html>" ++ nl ++ u "<head>" ++ nl
       ++ u "  <title>" ++ E ++ u "</title>" ++ R)
    = Some (m, Some E).
Proof.
  intros HE. unfold exec.
  let p := eval vm_compute in
    (u "<!DOCTYPE html>" ++ nl ++ u "<html>" ++ nl ++ u "<head>" ++ nl ++ u "  ") in
  change (u "<!DOCTYPE html>" ++ nl ++ u "<html>" ++ nl ++ u "<head>" ++ nl
          ++ u "  <title>" ++ E ++ u "</title>" ++ R)
    with (p ++ (u "<title>" ++ E ++ u "</title>" ++ R)).
  set (page := u "<title>" ++ E ++ u "</title>" ++ R).
  cbn [app].
  repeat first [rewrite title_skip by reflexivity
               |rewrite title_skip_tag by reflexivity].
  subst page. destruct (match_title_here E R 32 HE) as [j Hj].
  rewrite (exec_from_hit _ _ _ _ _ _ Hj). eexists. reflexivity.
Qed.

Lemma trim_ends t : trim t = t -> trimStart t = t /\ trimEnd t = t.
Proof.
  unfold trim. intros H.
  destruct (trimStart_suffix t) as [p Hp].
  destruct (trimEnd_prefix (trimStart t)) as [q Hq].
  assert (Hlen : length p = 0).
  { apply (f_equal length) in Hp, Hq. rewrite length_app in Hp, Hq.
    rewrite H in Hq. lia. }
  destruct p; [|discriminate Hlen]. cbn [app] in Hp.
  split; [symmetry; exact Hp|]. rewrite Hp at 1. exact H.
Qed.

Lemma trimEnd_snoc x d : is_ws d = false -> trimEnd (x ++ [d]) = x ++ [d].
Proof.
  intros H. unfold trimEnd. rewrite rev_app_distr. cbn [rev app].
  rewrite (trimStart_fixed d (rev x) H). cbn [rev]. rewrite rev_involutive.
  reflexivity.
Qed.

Lemma trimEnd_last x d : trimEnd (x ++ [d]) = x ++ [d] -> is_ws d = false.
Proof.
  intros H. destruct (is_ws d) eqn:E; [exfalso|reflexivity].
  unfold trimEnd in H. rewrite rev_app_distr in H. cbn [rev app trimStart] in H.
  rewrite E in H. destruct (trimEnd_prefix x) as [q Hq]. unfold trimEnd in Hq.
  apply (f_equal length) in H, Hq. rewrite !length_app in *. cbn [length] in *. lia.
Qed.

Lemma escape_char_ends c :
  is_ws c = false ->
  (exists d w, escape_char c = d :: w /\ is_ws d = false)
  /\ (exists w d, escape_char c = w ++ [d] /\ is_ws d = false).
Proof.
  intros H. unfold escape_char.
  repeat match goal with
         | |- context [(?a =? c)%N] => destruct (a =? c)%N
         end.
  1-5: match goal with
       | |- (exists d w, ?s = _ /\ _) /\ _ =>
           split; [eexists _, _; split; reflexivity
                  |exists (removelast s), (List.last s 0%N); split; reflexivity]
       end.
  split; [exists c, []|exists [], c]; split; auto.
Qed.

Lemma escapeHtml_trimmed t : t <> [] -> trim t = t -> trim (escapeHtml t) = escapeHtml t.
Proof.
  intros Hne Ht. apply trim_ends in Ht as [Hs He].
  rewrite escapeHtml_chars. unfold trim.
  assert (Hstart : trimStart (flat_map escape_char t) = flat_map escape_char t).
  { destruct t as [|c r]; [contradiction|].
    pose proof (trimStart_head _ _ _ Hs) as Hc.
    destruct (escape_char_ends c Hc) as [(d & w & Hd & Hw) _].
    cbn [flat_map]. rewrite Hd. cbn [app]. apply trimStart_fixed, Hw. }
  rewrite Hstart.
  destruct (exists_last Hne) as (r & c & ->).
  pose proof (trimEnd_last _ _ He) as Hc.
  destruct (escape_char_ends c Hc) as [_ (w & d & Hd & Hw)].
  rewrite flat_map_app. cbn [flat_map]. rewrite Hd, app_nil_r, app_assoc.
  apply trimEnd_snoc, Hw.
Qed.

Lemma escapeHtml_title_chars t :
  Forall (fun c => is_lt c = false) t -> Forall title_char (escapeHtml t).
Proof.
  intros H. rewrite escapeHtml_chars. apply Forall_flat_map.
  eapply Forall_impl; [exact H|]. intros c Hc. cbn beta in Hc.
  unfold escape_char.
  repeat match goal with
         | |- context [(?a =? c)%N] => destruct (N.eqb_spec a c)
         end;
    repeat constructor; try discriminate; try exact Hc; congruence.
Qed.

(** X21. The title survives a restoration up to escaping: the title
    that [getTitle] reads from the page that [restore] builds for a
    snapshot of [tiny] is the escaped title of the snapshot; it is the
    title itself when that has no markup character. *)
Theorem title_round_trip html text elems :
  let snapshot := CompSnapshot.mk (getTitle html) text elems in
  getTitle (restore snapshot) = escapeHtml (getTitle html)
  /\ (Forall (fun c => c <> 38%N /\ ~ markup_char c) (getTitle html) ->
      getTitle (restore snapshot) = getTitle html).
Proof.
  destruct (getTitle_shape html) as (Hne & Htrim & Hline).
  set (t := getTitle html) in *. cbv zeta.
  assert (H : getTitle (restore (CompSnapshot.mk t text elems)) = escapeHtml t).
  { unfold getTitle, restore. cbn [CompSnapshot.title CompSnapshot.text CompSnapshot.elems].
    match goal with
    | |- context [exec true title_re (_ ++ _ ++ _ ++ _ ++ _ ++ _ ++ _ ++ ?E ++ _ ++ ?R)] =>
        destruct (exec_title_page E R (escapeHtml_title_chars t Hline)) as [m Hm]
    end.
    rewrite Hm, (escapeHtml_trimmed t Hne Htrim).
    unfold or_else. destruct (escapeHtml t) eqn:E; [|reflexivity].
    rewrite escapeHtml_chars in E. destruct t as [|c r]; [contradiction|].
    cbn [flat_map] in E. apply app_eq_nil in E as [E _].
    exfalso. exact (escape_char_nonempty c E). }
  split; [exact H|].
  intros Hclean. rewrite H, escapeHtml_chars.
  clear -Hclean. induction Hclean as [|c r [Hc Hm] _ IH]; [reflexivity|].
  cbn [flat_map]. rewrite IH. unfold escape_char, markup_char in *.
  repeat match goal with
         | |- context [(?a =? c)%N] => destruct (N.eqb_spec a c)
         end; try reflexivity; exfalso; auto 6.
Qed.

(** ** The text through a restoration *)

Lemma match_blank_line_none i s :
  match s with c :: _ => c <> 10%N | [] => True end ->
  match_at false blank_line_re i s = None.
Proof.
  intros H. unfold match_at, blank_line_re, nl. cbn [seq run].
  destruct s as [|c s]; cbn [lit]; [reflexivity|].
  unfold chr_match. destruct (N.eqb_spec 10 c); [congruence|reflexivity].
Qed.

Lemma segments_no_newline s :
  forall i,
    Forall (fun c => c <> 10%N) s ->
    segments false blank_line_re i 0 s = map inl s.
Proof.
  induction s as [|c s IH]; intros i H; cbn [segments map].
  - rewrite match_blank_line_none by exact I. reflexivity.
  - apply Forall_cons in H as [Hc H].
    rewrite match_blank_line_none by exact Hc. rewrite IH by exact H. reflexivity.
Qed.

Lemma split_segs_chars (s : str) :
  forall cur, split_segs cur (map inl s) = [rev cur ++ s].
Proof.
  induction s as [|c s IH]; intros cur; cbn [split_segs map].
  - rewrite app_nil_r. reflexivity.
  - rewrite IH. cbn [rev]. rewrite <- app_assoc. reflexivity.
Qed.

Lemma paragraphsOf_line t :
  Forall (fun c => c <> 10%N) t ->
  paragraphsOf t = if truthy (trim t) then [t] else [].
Proof.
  intros H. unfold paragraphsOf, split.
  rewrite (segments_no_newline t 0 H), split_segs_chars. reflexivity.
Qed.

Lemma getText_no_newline html n :
  Forall (fun c => c <> 10%N) (slice0 n (getText html)).
Proof.
  apply Forall_slice0.
  destruct (getText_shape html) as (_ & H & _).
  eapply Forall_impl; [exact H|]. intros c Hc ->. discriminate (Hc eq_refl).
Qed.

(** X22. The text of a snapshot is restored as one paragraph: the text
    that [tiny] keeps (the visible text cut at any length) holds no
    line break, so the split into paragraphs in
    [generateContentSection] finds nothing to split, and the content
    section holds the trimmed, escaped text in a single [p] element,
    followed by the elements if there are any. *)
Theorem text_is_one_paragraph html n elements :
  let text := slice0 n (getText html) in
  generateContentSection text elements
  = u "    <section>" ++ nl
    ++ join nl
         ((if truthy (trim text)
           then [u "      <p>" ++ escapeHtml (trim text) ++ u "</p>"] else [])
          ++ (if 0 <? length elements
              then [uq "      <div class=`actions`>"]
                   ++ map (fun elem => elemToHtml elem (u "        ")) elements
                   ++ [u "      </div>"]
              else []))
    ++ nl ++ u "    </section>".
Proof.
  intros text. unfold generateContentSection.
  rewrite (paragraphsOf_line text (getText_no_newline html n)).
  destruct (truthy (trim text)); reflexivity.
Qed.
